(** * cms-meetup-site: the zap aggregation engine and the scheduled-post worker

    A shallow embedding of
    - [src/lib/queryRelays.ts]            (fan-out query, merge and dedupe),
    - [src/hooks/useZapAnalytics.ts]      (progressive receipt loader, analytics),
    - [src/edge-functions/publish-scheduled-posts.js] (delivery worker),
    followed by the properties the specification states about them.

    Conventions.  A JavaScript [number] holding a count or a Unix time is a [Z];
    [null]/[undefined] is [None]; a promise that has settled is a [Settled]
    value and a synchronous [throw] is a [Throws] completion.  Timers and abort
    signals carry no data the properties depend on: a sub-query that times out
    or is aborted is one whose promise rejects. *)

From Stdlib Require Import ZArith String List Bool Lia.
From stdpp Require Import base tactics option list gmap strings pretty.
Import ListNotations.
Local Open Scope string_scope.
Local Open Scope Z_scope.

Set Default Proof Using "Type".

(** ** JavaScript values the sources rely on *)

Module JS.

(** A thrown value: an [Error] object with its [message], or anything else. *)
Inductive Thrown : Type :=
| Error (message : string)
| NonError.

(** Outcome of a synchronous call. *)
Inductive Completion (A : Type) : Type :=
| Normal (a : A)
| Throws (reason : Thrown).
Arguments Normal {A} a.
Arguments Throws {A} reason.

(** Outcome of a promise, as [Promise.allSettled] reports it. *)
Inductive Settled (A : Type) : Type :=
| Fulfilled (value : A)
| Rejected (reason : Thrown).
Arguments Fulfilled {A} value.
Arguments Rejected {A} reason.

Definition isFulfilled {A} (r : Settled A) : bool :=
  match r with Fulfilled _ => true | Rejected _ => false end.

(** [r.value] of a settled result; only read after the [fulfilled] filter. *)
Definition value {A} (r : Settled (list A)) : list A :=
  match r with Fulfilled v => v | Rejected _ => [] end.

(** Truthiness of a number ([0] is falsy) and of an optional number. *)
Definition truthy (n : Z) : bool := negb (n =? 0).

Definition truthy_opt (n : option Z) : bool :=
  match n with Some v => truthy v | None => false end.

(** Truthiness of an optional string (the empty string is falsy). *)
Definition truthy_str (s : option string) : bool :=
  match s with Some v => negb (String.eqb v "") | None => false end.

(** [Math.min(...xs)]; [None] stands for the [Infinity] of an empty spread. *)
Definition Math_min (xs : list Z) : option Z :=
  match xs with
  | [] => None
  | x :: rest => Some (fold_left Z.min rest x)
  end.

(** [a || b] on an optional number. *)
Definition or_else (a : option Z) (b : Z) : Z :=
  match a with
  | Some v => if truthy v then v else b
  | None => b
  end.

(** A JavaScript [Map] with string keys: entries in insertion order.  [set]
    on a present key overwrites the value and keeps the entry's position. *)
Fixpoint Map_set {V} (k : string) (v : V) (m : list (string * V)) : list (string * V) :=
  match m with
  | [] => [(k, v)]
  | (k', v') :: m' =>
      if String.eqb k' k then (k', v) :: m' else (k', v') :: Map_set k v m'
  end.

(** [new Map(entries)] *)
Definition Map_new {V} (entries : list (string * V)) : list (string * V) :=
  fold_left (fun m kv => Map_set (fst kv) (snd kv) m) entries [].

(** [Array.from(m.values())] *)
Definition Map_values {V} (m : list (string * V)) : list V := map snd m.

End JS.

(** ** Nostr events and filters ([@nostrify/nostrify]) *)

Module Nostr.

Record NostrEvent : Type := mkEvent {
  id : string;
  pubkey : string;
  created_at : Z;
  kind : Z;
  tags : list (list string);
  content : string;
  sig : string;
}.

(** The filter object built by the loader; an absent key is [None]. *)
Record NostrFilter : Type := mkFilter {
  kinds : list Z;
  p_tag : list string;
  limit : Z;
  since : option Z;
  until : option Z;
}.

(** A single relay: [relay.query(filters, { signal })] either throws at the
    call or returns a promise. *)
Record NRelay : Type := mkRelay {
  relay_query : list NostrFilter -> JS.Completion (JS.Settled (list NostrEvent));
}.

(** The pool handed out by [useNostr]: [query] is an async method, [relay(url)]
    builds (or fails to build) a connection to one relay. *)
Record NPool : Type := mkPool {
  query : list NostrFilter -> JS.Settled (list NostrEvent);
  relay : string -> JS.Completion NRelay;
}.

Definition ids (l : list NostrEvent) : list string := map id l.

End Nostr.

(** ** src/lib/queryRelays.ts *)

Module QueryRelays.
Import JS.

(** The promise built for one NIP-65 relay url (the body of the [map]
    callback, with its [try]/[catch]). *)
Definition relayPromise (nostr : Nostr.NPool) (filters : list Nostr.NostrFilter)
    (url : string) : Settled (list Nostr.NostrEvent) :=
  match Nostr.relay nostr url with
  | Throws _ => Fulfilled []
  | Normal relay =>
      match Nostr.relay_query relay filters with
      | Throws _ => Fulfilled []
      | Normal p => p
      end
  end.

(** [Promise.allSettled([nostr.query(..), ...nip65RelayUrls.map(..)])] *)
Definition settledResults (nostr : Nostr.NPool) (filters : list Nostr.NostrFilter)
    (nip65RelayUrls : list string) : list (Settled (list Nostr.NostrEvent)) :=
  Nostr.query nostr filters :: map (relayPromise nostr filters) nip65RelayUrls.

(** [results.filter(r => r.status === 'fulfilled').flatMap(r => r.value)] *)
Definition allEvents (results : list (Settled (list Nostr.NostrEvent)))
    : list Nostr.NostrEvent :=
  flat_map value (List.filter isFulfilled results).

(** [Array.from(new Map(allEvents.map(e => [e.id, e])).values())] *)
Definition dedupeById (events : list Nostr.NostrEvent) : list Nostr.NostrEvent :=
  Map_values (Map_new (map (fun e => (Nostr.id e, e)) events)).

Definition queryWithNip65Fanout (nostr : Nostr.NPool)
    (filters : list Nostr.NostrFilter) (nip65RelayUrls : list string)
    : Settled (list Nostr.NostrEvent) :=
  let results := settledResults nostr filters nip65RelayUrls in
  Fulfilled (dedupeById (allEvents results)).

(** [getNip65ReadRelays] *)
Record RelayEntry : Type := mkRelayEntry {
  url : string;
  read : bool;
  write : bool;
}.

Definition getNip65ReadRelays (relayMetadata : option (list RelayEntry)) : list string :=
  match relayMetadata with
  | Some relays => map url (List.filter read relays)
  | None => []
  end.

End QueryRelays.

(** ** src/hooks/useZapAnalytics.ts: the progressive receipt loader *)

Module Zaplytics.
Import JS.

(** A zap receipt is a Nostr event that passed [isValidZapReceipt]. *)
Abbreviation ZapReceipt := Nostr.NostrEvent.

(** [TimeRange] is a union of string literals; the loader only ever compares
    it with ['custom']. *)
Definition TimeRange : Type := string.

(** [CustomDateRange]: two optional [Date]s (milliseconds since the epoch). *)
Record CustomDateRange : Type := mkCustomRange {
  from : option Z;
  to : option Z;
}.

(** What [getDateRange] returns. *)
Record DateRange : Type := mkDateRange {
  since : Z;
  until : option Z;
}.

(** The helpers imported from [@/lib/zaplytics/utils], whose file is not part
    of the sources at hand: they are parameters of the whole development. *)
Class Utils : Type := mkUtils {
  getDateRange : TimeRange -> option CustomDateRange -> DateRange;
  isValidZapReceipt : Nostr.NostrEvent -> bool;
}.

Module ZAP_FETCH_CONFIG.
Definition INITIAL_BATCH_SIZE : Z := 1000.
Definition MIN_BATCH_SIZE : Z := 250.
Definition MAX_BATCH_SIZE : Z := 2000.
Definition TIMEOUT_MS : Z := 8000.
Definition STALE_TIME : Z := 60000.
Definition REFETCH_INTERVAL : Z := 300000.
Definition BATCH_DELAY_MS : Z := 300.
Definition AUTO_LOAD_DELAY_MS : Z := 1000.
Definition MAX_CONSECUTIVE_FAILURES : Z := 3.
End ZAP_FETCH_CONFIG.

Record ZapLoadingState : Type := mkState {
  receipts : list ZapReceipt;
  isLoading : bool;
  isComplete : bool;
  currentBatch : Z;
  totalFetched : Z;
  relayLimit : option Z;
  error : option string;
  autoLoadEnabled : bool;
  consecutiveFailures : Z;
  consecutiveZeroResults : Z;
  allReceiptsCache : list ZapReceipt;
}.

(** The state [useState] starts from, and the one the user-change effect
    (lines 163-184) puts back. *)
Definition initialState : ZapLoadingState :=
  {| receipts := []; isLoading := false; isComplete := false;
     currentBatch := 0; totalFetched := 0; relayLimit := None; error := None;
     autoLoadEnabled := true; consecutiveFailures := 0;
     consecutiveZeroResults := 0; allReceiptsCache := [] |}.

(** The arguments of [useProgressiveZapReceipts] after
    [targetPubkey || currentUser?.pubkey]. *)
Record Props : Type := mkProps {
  pubkey : option string;
  timeRange : TimeRange;
  customRange : option CustomDateRange;
}.

(** What a render of the hook can see and change: the module-level
    [userZapCache], the React state and the in-flight flag. *)
Record World : Type := mkWorld {
  userZapCache : gmap string (list ZapReceipt);
  state : ZapLoadingState;
  isLoadingRef : bool;
}.

(** [xs.sort((a, b) => b.created_at - a.created_at)]: a stable sort, newest
    first.  [insertDesc] puts [x] in front of the first element that is not
    strictly newer, so equal timestamps keep their order. *)
Fixpoint insertDesc (x : ZapReceipt) (l : list ZapReceipt) : list ZapReceipt :=
  match l with
  | [] => [x]
  | y :: l' =>
      if Nostr.created_at x <? Nostr.created_at y
      then y :: insertDesc x l'
      else x :: y :: l'
  end.

Definition sortDesc (l : list ZapReceipt) : list ZapReceipt :=
  foldr insertDesc [] l.

(** [Math.min(...xs.map(r => r.created_at))] *)
Definition oldestTimestamp (xs : list ZapReceipt) : option Z :=
  Math_min (map Nostr.created_at xs).

Definition isCustom (timeRange : TimeRange) : bool := String.eqb timeRange "custom".

(** The predicate of both [filter] calls (lines 124-132 and 286-294). *)
Definition inRange (timeRange : TimeRange) (range : DateRange) (receipt : ZapReceipt) : bool :=
  if isCustom timeRange && truthy_opt (until range)
  then (since range <=? Nostr.created_at receipt)
       && (Nostr.created_at receipt <=? default 0 (until range))
  else since range <=? Nostr.created_at receipt.

Definition filterByRange (timeRange : TimeRange) (range : DateRange)
    (all : list ZapReceipt) : list ZapReceipt :=
  List.filter (inRange timeRange range) all.

(** Lines 215-228: the [until] the next query starts from.  The cache is
    non-empty exactly when [Math.min] over it has a value. *)
Definition currentUntil (timeRange : TimeRange) (range : DateRange)
    (cache : list ZapReceipt) : option Z :=
  match oldestTimestamp cache with
  | Some oldestTimestamp =>
      let paginationUntil := oldestTimestamp - 1 in
      if isCustom timeRange && truthy_opt (until range)
      then Some (Z.min paginationUntil (default 0 (until range)))
      else Some paginationUntil
  | None => until range
  end.

(** Lines 230-239: the size asked for. *)
Definition requestedBatchSize (isAutomatic : bool) (st : ZapLoadingState) : Z :=
  let batchSize := or_else (relayLimit st) ZAP_FETCH_CONFIG.INITIAL_BATCH_SIZE in
  let batchSize := Z.min batchSize ZAP_FETCH_CONFIG.MAX_BATCH_SIZE in
  if isAutomatic && (0 <? currentBatch st)
  then Z.min batchSize (or_else (relayLimit st) ZAP_FETCH_CONFIG.MIN_BATCH_SIZE)
  else batchSize.

(** Lines 241-258: the filter sent to the relays. *)
Definition buildFilter (pk : string) (batchSize : Z) (range : DateRange)
    (currentUntil : option Z) : Nostr.NostrFilter :=
  {| Nostr.kinds := [9735];
     Nostr.p_tag := [pk];
     Nostr.limit := batchSize;
     Nostr.since := if 0 <? since range then Some (since range) else None;
     Nostr.until := if truthy_opt currentUntil then currentUntil else None |}.

(** Lines 296-299. *)
Definition detectLimit (validCount batchSize : Z) (prevLimit : option Z) : option Z :=
  if (validCount <? batchSize) && (0 <? validCount)
  then Some (Z.max validCount ZAP_FETCH_CONFIG.MIN_BATCH_SIZE)
  else prevLimit.

Definition BOUNDARY_TOLERANCE_SECONDS : Z := 3600.

(** Lines 301-320. [oldestNew] is [Math.min] over the batch. *)
Definition completionAfter (timeRange : TimeRange) (range : DateRange)
    (validReceipts : list ZapReceipt) (detectedLimit : option Z) (batchSize : Z) : bool :=
  let expectedBatchSize := or_else detectedLimit batchSize in
  let validCount := Z.of_nat (length validReceipts) in
  if validCount =? 0 then truthy (since range)
  else
    let isComplete := validCount <? expectedBatchSize in
    if negb isComplete && negb (isCustom timeRange)
    then
      match oldestTimestamp validReceipts with
      | Some oldestNewReceipt =>
          if oldestNewReceipt <=? since range + BOUNDARY_TOLERANCE_SECONDS
          then true else isComplete
      | None => isComplete
      end
    else isComplete.

Section Loader.
Context `{U : Utils}.

Definition lengthZ {A} (l : list A) : Z := Z.of_nat (length l).

(** Line 206: [setState(prev => ({ ...prev, isLoading: true, error: null }))]. *)
Definition startLoading (prev : ZapLoadingState) : ZapLoadingState :=
  {| receipts := receipts prev; isLoading := true; isComplete := isComplete prev;
     currentBatch := currentBatch prev; totalFetched := totalFetched prev;
     relayLimit := relayLimit prev; error := None;
     autoLoadEnabled := autoLoadEnabled prev;
     consecutiveFailures := consecutiveFailures prev;
     consecutiveZeroResults := consecutiveZeroResults prev;
     allReceiptsCache := allReceiptsCache prev |}.

(** Line 276: the merge into the complete cache. *)
Definition mergeReceipts (cache validReceipts : list ZapReceipt) : list ZapReceipt :=
  sortDesc (cache ++ validReceipts).

(** Lines 274-334: the state update after a batch arrived. *)
Definition onBatchSuccess (p : Props) (validReceipts : list ZapReceipt)
    (batchSize : Z) (prev : ZapLoadingState) : ZapLoadingState :=
  let allReceipts := mergeReceipts (allReceiptsCache prev) validReceipts in
  let range := getDateRange (timeRange p) (customRange p) in
  let filteredReceipts := filterByRange (timeRange p) range allReceipts in
  let detectedLimit := detectLimit (lengthZ validReceipts) batchSize (relayLimit prev) in
  let isComplete :=
    completionAfter (timeRange p) range validReceipts detectedLimit batchSize in
  {| receipts := filteredReceipts;
     allReceiptsCache := allReceipts;
     isLoading := false;
     isComplete := isComplete;
     currentBatch := currentBatch prev + 1;
     totalFetched := lengthZ filteredReceipts;
     relayLimit := detectedLimit;
     error := error prev;
     autoLoadEnabled := autoLoadEnabled prev;
     consecutiveFailures := 0;
     consecutiveZeroResults :=
       if lengthZ validReceipts =? 0 then consecutiveZeroResults prev + 1 else 0 |}.

(** Lines 360-369: the state update in the [catch] branch. *)
Definition onBatchFailure (reason : Thrown) (prev : ZapLoadingState) : ZapLoadingState :=
  {| receipts := receipts prev;
     allReceiptsCache := allReceiptsCache prev;
     isLoading := false;
     isComplete := isComplete prev;
     currentBatch := currentBatch prev;
     totalFetched := totalFetched prev;
     relayLimit := relayLimit prev;
     error := Some (match reason with Error m => m | NonError => "Unknown error" end);
     autoLoadEnabled :=
       consecutiveFailures prev + 1 <? ZAP_FETCH_CONFIG.MAX_CONSECUTIVE_FAILURES;
     consecutiveFailures := consecutiveFailures prev + 1;
     consecutiveZeroResults := consecutiveZeroResults prev |}.

(** Lines 191-203: the two guards in front of a cycle. *)
Definition cycleBlocked (p : Props) (isAutomatic : bool) (w : World) : bool :=
  let currentState := state w in
  let maxConsecutiveZeroResults := 3 in
  (negb (truthy_str (pubkey p)) || isLoadingRef w || isComplete currentState)
  || (isAutomatic &&
      (negb (autoLoadEnabled currentState)
       || (ZAP_FETCH_CONFIG.MAX_CONSECUTIVE_FAILURES <=? consecutiveFailures currentState)
       || (maxConsecutiveZeroResults <=? consecutiveZeroResults currentState))).

(** The filter a cycle sends, from the state it starts in. *)
Definition cycleFilter (p : Props) (isAutomatic : bool) (st : ZapLoadingState)
    : Nostr.NostrFilter :=
  let range := getDateRange (timeRange p) (customRange p) in
  buildFilter (default "" (pubkey p)) (requestedBatchSize isAutomatic st) range
    (currentUntil (timeRange p) range (allReceiptsCache st)).

(** Lines 268-271. *)
Definition validate (events : list Nostr.NostrEvent) : list ZapReceipt :=
  sortDesc (List.filter isValidZapReceipt events).

(** [loadMoreZaps(isAutomatic)], lines 187-374.  [attempt] is the awaited
    part of the [try] block: given the filter it either yields the events of
    the fan-out query or the value that was thrown.  The result is the world
    after the cycle and the filters that were sent.  The ref [stateRef] is
    taken to be in step with the state (cycles of one subject never overlap),
    and the timer that re-arms an automatic cycle is not part of the model. *)
Definition loadMoreZaps (p : Props)
    (attempt : Nostr.NostrFilter -> Settled (list Nostr.NostrEvent))
    (isAutomatic : bool) (w : World) : World * list Nostr.NostrFilter :=
  if cycleBlocked p isAutomatic w then (w, [])
  else
    let currentState := state w in
    let pk := default "" (pubkey p) in
    let batchSize := requestedBatchSize isAutomatic currentState in
    let filter := cycleFilter p isAutomatic currentState in
    let loading := startLoading (state w) in
    match attempt filter with
    | Fulfilled events =>
        let st' := onBatchSuccess p (validate events) batchSize loading in
        ({| userZapCache := <[pk := allReceiptsCache st']> (userZapCache w);
            state := st'; isLoadingRef := false |}, [filter])
    | Rejected reason =>
        ({| userZapCache := userZapCache w;
            state := onBatchFailure reason loading;
            isLoadingRef := false |}, [filter])
    end.

(** The [attempt] the hook really makes (line 266). *)
Definition fanoutAttempt (nostr : Nostr.NPool) (nip65ReadRelays : list string)
    (filter : Nostr.NostrFilter) : Settled (list Nostr.NostrEvent) :=
  QueryRelays.queryWithNip65Fanout nostr [filter] nip65ReadRelays.

(** Lines 506-509. *)
Definition manualLoadMore (p : Props)
    (attempt : Nostr.NostrFilter -> Settled (list Nostr.NostrEvent)) (w : World)
    : World * list Nostr.NostrFilter :=
  loadMoreZaps p attempt false w.

Definition withState (w : World) (st : ZapLoadingState) : World :=
  {| userZapCache := userZapCache w; state := st; isLoadingRef := isLoadingRef w |}.

(** Lines 512-514. *)
Definition toggleAutoLoad (w : World) : World :=
  let prev := state w in
  withState w
    {| receipts := receipts prev; isLoading := isLoading prev;
       isComplete := isComplete prev; currentBatch := currentBatch prev;
       totalFetched := totalFetched prev; relayLimit := relayLimit prev;
       error := error prev; autoLoadEnabled := negb (autoLoadEnabled prev);
       consecutiveFailures := consecutiveFailures prev;
       consecutiveZeroResults := consecutiveZeroResults prev;
       allReceiptsCache := allReceiptsCache prev |}.

(** Lines 517-523: the state part of [restartAutoLoad]. *)
Definition restartAutoLoad (w : World) : World :=
  let prev := state w in
  withState w
    {| receipts := receipts prev; isLoading := isLoading prev;
       isComplete := isComplete prev; currentBatch := currentBatch prev;
       totalFetched := totalFetched prev; relayLimit := relayLimit prev;
       error := error prev; autoLoadEnabled := true;
       consecutiveFailures := 0;
       consecutiveZeroResults := 0;
       allReceiptsCache := allReceiptsCache prev |}.

(** [oldestCachedTimestamp] of the effects: [0] for an empty cache. *)
Definition oldestCachedTimestamp (userCache : list ZapReceipt) : Z :=
  default 0 (oldestTimestamp userCache).

(** Lines 116-160: the effect that re-reads the cache when the subject or the
    window changes. *)
Definition initFromCache (p : Props) (w : World) : World :=
  if negb (truthy_str (pubkey p)) then w
  else
    let userCache := default [] (userZapCache w !! default "" (pubkey p)) in
    let range := getDateRange (timeRange p) (customRange p) in
    let filteredReceipts := filterByRange (timeRange p) range userCache in
    let hasCompleteCoverage :=
      (0 <? lengthZ userCache) && (oldestCachedTimestamp userCache <=? since range) in
    let prev := state w in
    withState w
      {| receipts := filteredReceipts; isLoading := isLoading prev;
         isComplete := hasCompleteCoverage; currentBatch := currentBatch prev;
         totalFetched := lengthZ filteredReceipts; relayLimit := relayLimit prev;
         error := None; autoLoadEnabled := autoLoadEnabled prev;
         consecutiveFailures := consecutiveFailures prev;
         consecutiveZeroResults := consecutiveZeroResults prev;
         allReceiptsCache := userCache |}.

(** Lines 163-184: the effect that runs when the subject changes. *)
Definition resetOnUserChange (w : World) : World :=
  {| userZapCache := userZapCache w; state := initialState; isLoadingRef := false |}.

(** A change of window runs the first effect; a change of subject runs both,
    in the order they are declared. *)
Definition onTimeRangeChange (p : Props) (w : World) : World := initFromCache p w.

Definition onUserChange (p : Props) (w : World) : World :=
  resetOnUserChange (initFromCache p w).

(** Lines 377-426: whether the auto-start effect arms [loadMoreZaps(true)].
    [now] is [Date.now() / 1000]. *)
Definition shouldStartLoading (p : Props) (now : Z) (w : World) : bool :=
  if negb (truthy_str (pubkey p)) then false
  else
    let currentState := state w in
    let range := getDateRange (timeRange p) (customRange p) in
    let isCustomRange := isCustom (timeRange p) in
    let userCache := default [] (userZapCache w !! default "" (pubkey p)) in
    let oldest := oldestCachedTimestamp userCache in
    let covers := (0 <? lengthZ userCache) && (oldest <=? since range) in
    if isCustomRange && covers then false
    else
      let upper := if truthy_opt (until range) then default 0 (until range) else now in
      let filteredForCustomRange :=
        List.filter (fun receipt =>
          (since range <=? Nostr.created_at receipt)
          && (Nostr.created_at receipt <=? upper)) userCache in
      let hasDataForTimeRange :=
        if isCustomRange then 0 <? lengthZ filteredForCustomRange
        else 0 <? lengthZ (receipts currentState) in
      let isCompleteForThisRange :=
        if isCustomRange then covers else isComplete currentState in
      let needsMoreData :=
        negb hasDataForTimeRange || (hasDataForTimeRange && (since range <? oldest)) in
      needsMoreData && negb (isLoading currentState)
      && negb isCompleteForThisRange && autoLoadEnabled currentState.

End Loader.

(** *** The analytics hook, lines 542-911 *)

(** [ParsedZap], as far as the hook reads and writes it (its declaration is
    in [@/types/zaplytics]). *)
Record Zapper : Type := mkZapper {
  zapper_pubkey : string;
  zapper_name : option string;
  zapper_nip05 : option string;
  zapper_picture : option string;
}.

Record ZappedEvent : Type := mkZappedEvent {
  zapped_id : string;
  zapped_kind : option Z;
  zapped_author : option string;
  zapped_content : option string;
  zapped_created_at : option Z;
}.

Record ParsedZap : Type := mkParsedZap {
  amount : Z;
  zapper : Zapper;
  zappedEvent : option ZappedEvent;
}.

(** A kind-0 profile, [Record<string, unknown>] read at four keys. *)
Record Profile : Type := mkProfile {
  profile_name : option string;
  profile_display_name : option string;
  profile_nip05 : option string;
  profile_picture : option string;
}.

Record ZapperLoyalty (LoyalZapper : Type) : Type := mkLoyalty {
  newZappers : Z;
  returningZappers : Z;
  regularSupporters : Z;
  averageLifetimeValue : Z;
  topLoyalZappers : list LoyalZapper;
}.
Arguments mkLoyalty {LoyalZapper}.
Arguments topLoyalZappers {LoyalZapper}.

(** The pure aggregations of [@/lib/zaplytics/utils] and the row types they
    produce: parameters, like [Utils]. [zapRequestPubkey desc] is
    [JSON.parse(desc).pubkey]. *)
Class Aggregators : Type := mkAggregators {
  EarningsByPeriod : Type;
  ContentEarnings : Type;
  KindEarnings : Type;
  ZapperStats : Type;
  HourlyEarnings : Type;
  DailyEarnings : Type;
  LoyalZapper : Type;
  ContentPerformance : Type;
  HashtagPerformance : Type;
  parseZapReceipt : ZapReceipt -> option ParsedZap;
  groupZapsByPeriod : list ParsedZap -> TimeRange -> option CustomDateRange -> list EarningsByPeriod;
  groupZapsByContent : list ParsedZap -> list ContentEarnings;
  groupZapsByKind : list ParsedZap -> list KindEarnings;
  getTopZappers : list ParsedZap -> list ZapperStats;
  groupZapsByHour : list ParsedZap -> list HourlyEarnings;
  groupZapsByDayOfWeek : list ParsedZap -> list DailyEarnings;
  analyzeZapperLoyalty : list ParsedZap -> ZapperLoyalty LoyalZapper;
  analyzeContentPerformance : list ParsedZap -> list ContentPerformance;
  analyzeHashtagPerformance : list ParsedZap -> list HashtagPerformance;
  zapRequestPubkey : string -> Completion (option string);
}.

Section Analytics.
Context `{U : Utils} `{G : Aggregators}.

Record LoadingInfo : Type := mkLoadingInfo {
  li_isLoading : bool;
  li_isComplete : bool;
  li_totalFetched : Z;
  li_relayLimit : option Z;
  li_canLoadMore : bool;
  li_autoLoadEnabled : bool;
  li_consecutiveFailures : Z;
}.

Record AnalyticsData : Type := mkAnalytics {
  totalEarnings : Z;
  totalZaps : Z;
  uniqueZappers : Z;
  period : TimeRange;
  earningsByPeriod : list EarningsByPeriod;
  topContent : list ContentEarnings;
  earningsByKind : list KindEarnings;
  topZappers : list ZapperStats;
  allZaps : list ParsedZap;
  earningsByHour : list HourlyEarnings;
  earningsByDayOfWeek : list DailyEarnings;
  zapperLoyalty : ZapperLoyalty LoyalZapper;
  contentPerformance : list ContentPerformance;
  hashtagPerformance : list HashtagPerformance;
  loadingState : LoadingInfo;
}.

(** [tags.find(tag => tag[0] === name)?.[1]] *)
Definition tagValue (name : string) (tags : list (list string)) : option string :=
  match List.find (fun tag => match tag with t0 :: _ => String.eqb t0 name | [] => false end) tags with
  | Some tag => tag !! 1%nat
  | None => None
  end.

Definition truthyStrings (l : list (option string)) : list string :=
  omap (fun s => if truthy_str s then s else None) l.

(** Lines 553-555 and 627: the ids [useZappedContent] asks for; its query is
    [enabled] only when there is one. *)
Definition eventIds (zapReceipts : list ZapReceipt) : list string :=
  truthyStrings (map (fun receipt => tagValue "e" (Nostr.tags receipt)) zapReceipts).

Definition zappedContentEnabled (zapReceipts : list ZapReceipt) : bool :=
  0 <? lengthZ (eventIds zapReceipts).

(** Lines 739-753. *)
Definition zapperPubkeyOf (receipt : ZapReceipt) : option string :=
  let desc := tagValue "description" (Nostr.tags receipt) in
  if truthy_str desc then
    match zapRequestPubkey (default "" desc) with
    | Normal pk => pk
    | Throws _ => Some (Nostr.pubkey receipt)
    end
  else Some (Nostr.pubkey receipt).

Definition zapperPubkeys (zapReceipts : list ZapReceipt) : list string :=
  truthyStrings (map zapperPubkeyOf zapReceipts).

(** Lines 755-763 and 640-715: [useZapperProfiles] is [enabled] only when
    some pubkey is asked for. *)
Definition zapperProfilesEnabled (zapReceipts : list ZapReceipt)
    (contentMap : list (string * Nostr.NostrEvent)) : bool :=
  let contentAuthorPubkeys := map Nostr.pubkey (Map_values contentMap) in
  let allPubkeys := (zapperPubkeys zapReceipts ++ contentAuthorPubkeys)%list in
  0 <? lengthZ (remove_dups allPubkeys).

(** [customRange?.from] and [customRange?.to], as truth values (a [Date] is
    an object, hence truthy whenever it is there). *)
Definition hasFrom (customRange : option CustomDateRange) : bool :=
  match customRange with Some r => bool_decide (is_Some (from r)) | None => false end.

Definition hasTo (customRange : option CustomDateRange) : bool :=
  match customRange with Some r => bool_decide (is_Some (to r)) | None => false end.

(** Line 725. *)
Definition shouldQueryData (timeRange : TimeRange)
    (customRange : option CustomDateRange) : bool :=
  negb (isCustom timeRange) || (hasFrom customRange && hasTo customRange).

(** Lines 727-731: what the analytics hook hands to the loader. *)
Definition loaderProps (timeRange : TimeRange) (customRange : option CustomDateRange)
    (targetPubkey currentUserPubkey : option string) : Props :=
  {| pubkey := if truthy_str targetPubkey then targetPubkey else currentUserPubkey;
     timeRange := if shouldQueryData timeRange customRange then timeRange else "7d";
     customRange := if shouldQueryData timeRange customRange then customRange else None |}.

(** Lines 782-818. *)
Definition emptyAnalytics (timeRange : TimeRange) (progressiveData : ZapLoadingState)
    : AnalyticsData :=
  {| totalEarnings := 0; totalZaps := 0; uniqueZappers := 0; period := timeRange;
     earningsByPeriod := []; topContent := []; earningsByKind := [];
     topZappers := []; allZaps := []; earningsByHour := [];
     earningsByDayOfWeek := [];
     zapperLoyalty := mkLoyalty 0 0 0 0 [];
     contentPerformance := []; hashtagPerformance := [];
     loadingState :=
       {| li_isLoading := false; li_isComplete := true; li_totalFetched := 0;
          li_relayLimit := None; li_canLoadMore := false;
          li_autoLoadEnabled := autoLoadEnabled progressiveData;
          li_consecutiveFailures := consecutiveFailures progressiveData |} |}.

(** Lines 827-852: content and profile details written onto a parsed zap. *)
Definition enrich (contentMap : list (string * Nostr.NostrEvent))
    (profileMap : list (string * Profile)) (zap : ParsedZap) : ParsedZap :=
  let lookup {V} (k : string) (m : list (string * V)) : option V :=
    snd <$> List.find (fun kv => String.eqb (fst kv) k) m in
  let zappedEvent' :=
    match zappedEvent zap with
    | Some ze =>
        match lookup (zapped_id ze) contentMap with
        | Some event =>
            Some {| zapped_id := zapped_id ze;
                    zapped_kind := Some (Nostr.kind event);
                    zapped_author := Some (Nostr.pubkey event);
                    zapped_content := Some (Nostr.content event);
                    zapped_created_at := Some (Nostr.created_at event) |}
        | None => Some ze
        end
    | None => None
    end in
  let zapper' :=
    match lookup (zapper_pubkey (zapper zap)) profileMap with
    | Some profile =>
        {| zapper_pubkey := zapper_pubkey (zapper zap);
           zapper_name :=
             if truthy_str (profile_name profile) then profile_name profile
             else profile_display_name profile;
           zapper_nip05 := profile_nip05 profile;
           zapper_picture := profile_picture profile |}
    | None => zapper zap
    end in
  {| amount := amount zap; zapper := zapper'; zappedEvent := zappedEvent' |}.

(** Lines 767-906: the [queryFn] of the analytics query. *)
Definition analyticsQueryFn (timeRange : TimeRange) (customRange : option CustomDateRange)
    (progressiveData : ZapLoadingState)
    (contentMap : list (string * Nostr.NostrEvent))
    (profileMap : list (string * Profile))
    (contentLoading profilesLoading : bool) : AnalyticsData :=
  if isCustom timeRange && (negb (hasFrom customRange) || negb (hasTo customRange))
  then emptyAnalytics timeRange progressiveData
  else
    let parsedZaps :=
      map (enrich contentMap profileMap) (omap parseZapReceipt (receipts progressiveData)) in
    {| totalEarnings := fold_left (fun sum zap => sum + amount zap) parsedZaps 0;
       totalZaps := lengthZ parsedZaps;
       uniqueZappers :=
         lengthZ (remove_dups (map (fun zap => zapper_pubkey (zapper zap)) parsedZaps));
       period := timeRange;
       earningsByPeriod := groupZapsByPeriod parsedZaps timeRange customRange;
       topContent := take 5 (groupZapsByContent parsedZaps);
       earningsByKind := groupZapsByKind parsedZaps;
       topZappers := take 5 (getTopZappers parsedZaps);
       allZaps := parsedZaps;
       earningsByHour := groupZapsByHour parsedZaps;
       earningsByDayOfWeek := groupZapsByDayOfWeek parsedZaps;
       zapperLoyalty := analyzeZapperLoyalty parsedZaps;
       contentPerformance := take 10 (analyzeContentPerformance parsedZaps);
       hashtagPerformance := analyzeHashtagPerformance parsedZaps;
       loadingState :=
         {| li_isLoading := isLoading progressiveData || contentLoading || profilesLoading;
            li_isComplete :=
              isComplete progressiveData && negb contentLoading && negb profilesLoading;
            li_totalFetched := totalFetched progressiveData;
            li_relayLimit := relayLimit progressiveData;
            li_canLoadMore :=
              negb (isComplete progressiveData) && negb (isLoading progressiveData);
            li_autoLoadEnabled := autoLoadEnabled progressiveData;
            li_consecutiveFailures := consecutiveFailures progressiveData |} |}.

End Analytics.

End Zaplytics.

(** ** src/edge-functions/publish-scheduled-posts.js: the delivery worker *)

Module PublishScheduledPosts.
Import JS.

Definition BATCH_SIZE : Z := 25.
Definition MAX_WORKERS : Z := 5.
Definition RELAY_TIMEOUT : Z := 10000.

Inductive ScheduledPostStatus : Type := pending | published | failed.

(** The [signed_event] column as the worker reads it: [null], JSON text, or
    an object already decoded by the database client. *)
Inductive SignedEventField : Type :=
| SignedNull
| SignedText (json : string)
| SignedObject (event : Nostr.NostrEvent).

(** The [relays] column: JSON text or an array. *)
Inductive RelaysField : Type :=
| RelaysText (json : string)
| RelaysArray (urls : list string).

Record ScheduledPost : Type := mkPost {
  id : string;
  user_pubkey : string;
  signed_event : SignedEventField;
  kind : Z;
  scheduled_for : string;
  status : ScheduledPostStatus;
  relays : RelaysField;
  created_at : string;
  published_at : option string;
  error_message : option string;
  retry_count : Z;
}.

(** What the worker calls but does not define: [JSON.parse] on the two
    columns, the relay behind [publishToRelay]'s WebSocket (the promise it
    returns has settled when [Promise.allSettled] resumes), and the clock. *)
Class Runtime : Type := mkRuntime {
  parseSignedEvent : string -> Completion Nostr.NostrEvent;
  parseRelays : string -> Completion (list string);
  relayAnswer : string -> Nostr.NostrEvent -> Settled unit;
  nowISO : string;
}.

(** The object passed to [.update(..)]: [published_at] is only written when
    the key is present; [error_message] is always written, [null] included. *)
Record UpdateData : Type := mkUpdate {
  u_status : ScheduledPostStatus;
  u_published_at : option string;
  u_error_message : option string;
}.

(** What a run does to the outside: sockets opened and rows updated. *)
Inductive Effect : Type :=
| OpenSocket (wsUrl : string) (event : Nostr.NostrEvent)
| DbUpdate (postId : string) (data : UpdateData).

(** The value [processPost] resolves to. *)
Record PostResult : Type := mkResult {
  success : bool;
  postId : string;
  error : option string;
  publishedToRelays : option Z;
  totalRelays : option Z;
  partialError : option string;
}.

(** [.from('scheduled_posts').update(data).eq('id', postId)] on the table. *)
Definition applyUpdate (postId : string) (data : UpdateData)
    (table : list ScheduledPost) : list ScheduledPost :=
  map (fun row =>
    if String.eqb (id row) postId then
      {| id := id row; user_pubkey := user_pubkey row;
         signed_event := signed_event row; kind := kind row;
         scheduled_for := scheduled_for row; status := u_status data;
         relays := relays row; created_at := created_at row;
         published_at :=
           match u_published_at data with
           | Some t => Some t
           | None => published_at row
           end;
         error_message := u_error_message data;
         retry_count := retry_count row |}
    else row) table.

Definition applyEffect (e : Effect) (table : list ScheduledPost) : list ScheduledPost :=
  match e with
  | OpenSocket _ _ => table
  | DbUpdate postId data => applyUpdate postId data table
  end.

Definition applyEffects (trace : list Effect) (table : list ScheduledPost)
    : list ScheduledPost :=
  fold_left (fun t e => applyEffect e t) trace table.

Definition socketsOpened (trace : list Effect) : list string :=
  omap (fun e => match e with OpenSocket u _ => Some u | DbUpdate _ _ => None end) trace.

(** Lines 258-263 of [publishToRelay]. *)
Definition toWsUrl (relayURL : string) : string :=
  if String.prefix "http://" relayURL
  then "ws://" +:+ String.substring 7 (String.length relayURL - 7) relayURL
  else if String.prefix "https://" relayURL
  then "wss://" +:+ String.substring 8 (String.length relayURL - 8) relayURL
  else relayURL.

(** [error.message] inside a template literal. *)
Definition messageText (e : Thrown) : string :=
  match e with Error m => m | NonError => "undefined" end.

(** [lastError?.message || 'Unknown error'] *)
Definition messageOrUnknown (lastError : option Thrown) : string :=
  match lastError with
  | Some (Error m) => if String.eqb m "" then "Unknown error" else m
  | _ => "Unknown error"
  end.

Section Worker.
Context `{R : Runtime}.

(** [updatePostStatus], lines 231-249. *)
Definition updatePostStatus (postId : string) (status : ScheduledPostStatus)
    (errorMessage : option string) : list Effect :=
  [DbUpdate postId
     {| u_status := status;
        u_published_at :=
          match status with published => Some nowISO | _ => None end;
        u_error_message := errorMessage |}].

Definition failWith (post : ScheduledPost) (errorMessage : string)
    : list Effect * PostResult :=
  (updatePostStatus (id post) failed (Some errorMessage),
   {| success := false; postId := id post; error := Some errorMessage;
      publishedToRelays := None; totalRelays := None; partialError := None |}).

(** Lines 162-182: one socket per relay url; the count of accepted sends and
    the last error seen.  Failures are taken in the order of the url list. *)
Definition sendToRelays (relayUrls : list string) (event : Nostr.NostrEvent)
    : list Effect * Z * option Thrown :=
  fold_left
    (fun acc relayURL =>
       let '(trace, successCount, lastError) := acc in
       let trace' := (trace ++ [OpenSocket (toWsUrl relayURL) event])%list in
       match relayAnswer relayURL event with
       | Fulfilled _ => (trace', successCount + 1, lastError)
       | Rejected err => (trace', successCount, Some err)
       end)
    relayUrls ([], 0, None).

(** Lines 153-218, once the event is decoded. *)
Definition publishEvent (post : ScheduledPost) (event : Nostr.NostrEvent)
    : list Effect * PostResult :=
  let relayUrls :=
    match relays post with
    | RelaysText json => parseRelays json
    | RelaysArray urls => Normal urls
    end in
  match relayUrls with
  | Throws err =>
      let '(trace, result) := failWith post ("Processing error: " +:+ messageText err) in
      (trace, result)
  | Normal relayUrls =>
      let '(sent, successCount, lastError) := sendToRelays relayUrls event in
      let total := Z.of_nat (length relayUrls) in
      if 0 <? successCount then
        let errorMessage :=
          match lastError with
          | Some err =>
              if successCount <? total
              then Some ("Partially published (" +:+ pretty successCount +:+ "/"
                         +:+ pretty total +:+ " relays). Last error: "
                         +:+ messageText err)
              else None
          | None => None
          end in
        ((sent ++ [DbUpdate (id post)
                     {| u_status := published; u_published_at := Some nowISO;
                        u_error_message := errorMessage |}])%list,
         {| success := true; postId := id post; error := None;
            publishedToRelays := Some successCount; totalRelays := Some total;
            partialError := errorMessage |})
      else
        let '(trace, result) :=
          failWith post ("Failed to publish to any relay. Last error: "
                         +:+ messageOrUnknown lastError) in
        ((sent ++ trace)%list, result)
  end.

(** [processPost], lines 129-226. *)
Definition processPost (post : ScheduledPost) : list Effect * PostResult :=
  match signed_event post with
  | SignedNull => failWith post "Signed event is null"
  | SignedText json =>
      if String.eqb json "" then failWith post "Signed event is null"
      else
        match parseSignedEvent json with
        | Throws parseError =>
            failWith post ("Failed to parse signed event: " +:+ messageText parseError)
        | Normal event => publishEvent post event
        end
  | SignedObject event => publishEvent post event
  end.

End Worker.

End PublishScheduledPosts.

(** ** Chunked loops

    [for (let i = 0; i < xs.length; i += size) chunks.push(xs.slice(i, i + size))],
    the loop of [useZappedContent], [useZapperProfiles] and
    [processPostsInBatches].  [size] is a positive constant at each of its
    uses; an iteration then moves [i] forward, so [length xs] iterations are
    enough. *)

Module Chunks.

(** [xs.slice(i, j)] for [0 <= i <= j]. *)
Definition slice {A} (i j : nat) (xs : list A) : list A := take (j - i) (drop i xs).

Fixpoint chunksFrom {A} (fuel size i : nat) (xs : list A) : list (list A) :=
  match fuel with
  | O => []
  | S fuel' =>
      if (i <? length xs)%nat
      then slice i (i + size) xs :: chunksFrom fuel' size (i + size) xs
      else []
  end.

Definition chunks {A} (size : nat) (xs : list A) : list (list A) :=
  chunksFrom (length xs) size 0 xs.

End Chunks.

(** ** publish-scheduled-posts.js: [publishToRelay], lines 255-338

    The promise of one send, driven by what the WebSocket reports. *)

Module RelaySocket.
Import JS.

Inductive ReadyState : Type := CONNECTING | OPEN | CLOSING | CLOSED.

(** What [onmessage] makes of a frame: [JSON.parse] or the indexing threw, an
    ["OK"] array with the three fields read from it ([message[2]] as a truth
    value, [message[3]] as printed), or any other JSON value. *)
Inductive RelayMessage : Type :=
| Unparsable
| OkMessage (eventId : string) (success : bool) (errorMessage : string)
| OtherMessage.

(** What can happen to the socket, in the order it happens. *)
Inductive SocketEvent : Type :=
| Opened
| Message (m : RelayMessage)
| Errored
| Closed (code : Z) (reason : string)
| TimedOut.

Record Socket : Type := mkSocket {
  readyState : ReadyState;
  resolved : bool;
  promise : option (Settled unit);
  timerArmed : bool;
  sent : list Nostr.NostrEvent;
}.

Section Send.
Variable relayURL : string.
Variable event : Nostr.NostrEvent.

(** [cleanup], lines 269-274. *)
Definition cleanup (s : Socket) : Socket :=
  {| readyState := match readyState s with OPEN => CLOSING | st => st end;
     resolved := resolved s; promise := promise s;
     timerArmed := false; sent := sent s |}.

Definition settle (outcome : Settled unit) (s : Socket) : Socket :=
  let s' := cleanup s in
  {| readyState := readyState s'; resolved := true; promise := Some outcome;
     timerArmed := timerArmed s'; sent := sent s' |}.

(** [resolveOnce], lines 276-281. *)
Definition resolveOnce (s : Socket) : Socket :=
  if resolved s then s else settle (Fulfilled tt) s.

(** [rejectOnce], lines 283-288. *)
Definition rejectOnce (error : string) (s : Socket) : Socket :=
  if resolved s then s else settle (Rejected (Error error)) s.

Definition withReadyState (st : ReadyState) (s : Socket) : Socket :=
  {| readyState := st; resolved := resolved s; promise := promise s;
     timerArmed := timerArmed s; sent := sent s |}.

(** The handlers, lines 291-336.  The browser has moved [readyState] to
    [OPEN] before [onopen] runs and to [CLOSED] before [onclose] runs; a timer
    that was cleared does not fire. *)
Definition handle (s : Socket) (ev : SocketEvent) : Socket :=
  match ev with
  | Opened =>
      let s := withReadyState OPEN s in
      {| readyState := readyState s; resolved := resolved s; promise := promise s;
         timerArmed := timerArmed s; sent := (sent s ++ [event])%list |}
  | Message Unparsable => s
  | Message OtherMessage => s
  | Message (OkMessage eventId success errorMessage) =>
      if success then resolveOnce s
      else rejectOnce ("Relay rejected event: " +:+ errorMessage) s
  | Errored => rejectOnce ("WebSocket error for relay " +:+ relayURL) s
  | Closed code reason =>
      let s := withReadyState CLOSED s in
      if resolved s then s
      else if code =? 1000 then resolveOnce s
      else rejectOnce ("WebSocket closed: " +:+ pretty code +:+ " " +:+ reason) s
  | TimedOut =>
      if timerArmed s
      then rejectOnce ("Timeout connecting to relay " +:+ relayURL) s
      else s
  end.

(** The socket once the executor has run to its end: connecting, with the
    timer armed and the handlers installed. *)
Definition connecting : Socket :=
  {| readyState := CONNECTING; resolved := false; promise := None;
     timerArmed := true; sent := [] |}.

(** [publishToRelay]: [new WebSocket(wsUrl)] either throws, which rejects the
    promise before any timer or handler exists, or gives a socket whose
    handlers then see [events]. *)
Definition publishToRelay (construct : Completion unit) (events : list SocketEvent)
    : Socket :=
  match construct with
  | Throws err =>
      {| readyState := CLOSED; resolved := false; promise := Some (Rejected err);
         timerArmed := false; sent := [] |}
  | Normal _ => fold_left handle events connecting
  end.

End Send.
End RelaySocket.

(** ** publish-scheduled-posts.js: the batches and the request handler *)

Module WorkerRun.
Import JS PublishScheduledPosts.

(** An entry of [results]: what [processPost] resolved to, or
    [{ success: false, error }] for a promise that rejected. *)
Inductive BatchResult : Type :=
| Processed (result : PostResult)
| Crashed (error : string).

Definition succeeded (r : BatchResult) : bool :=
  match r with Processed result => success result | Crashed _ => false end.

Section Batches.
(** One post's processing: its effects and how its promise settled. *)
Variable process : ScheduledPost -> list Effect * Settled PostResult.

(** Lines 113-120. [result.reason?.message || 'Unknown error']. *)
Definition collect (settled : Settled PostResult) : BatchResult :=
  match settled with
  | Fulfilled value => Processed value
  | Rejected (Error m) => Crashed (if String.eqb m "" then "Unknown error" else m)
  | Rejected NonError => Crashed "Unknown error"
  end.

(** One batch, lines 109-120: the posts of a batch run side by side; their
    effects are listed post by post. *)
Definition runBatch (batch : list ScheduledPost) : list Effect * list BatchResult :=
  let outcomes := map process batch in
  (concat (map fst outcomes), map (fun o => collect (snd o)) outcomes).

(** [processPostsInBatches], lines 104-124. *)
Definition processPostsInBatches (posts : list ScheduledPost)
    : list Effect * list BatchResult :=
  fold_left
    (fun acc batch =>
       let '(trace, results) := runBatch batch in
       ((fst acc ++ trace)%list, (snd acc ++ results)%list))
    (Chunks.chunks (Z.to_nat MAX_WORKERS) posts) ([], []).

End Batches.

(** The answer of the [select ... limit BATCH_SIZE] on [scheduled_posts]:
    the client's [{ data, error }], or a throw. *)
Inductive SelectOutcome : Type :=
| SelectData (data : option (list ScheduledPost))
| SelectError (details : string)
| SelectThrows (err : Thrown).

(** The JSON bodies the handler answers with. *)
Inductive ResponseBody : Type :=
| NoBody
| FetchFailed (details : string)
| NothingPending
| ProcessingComplete (total successful failed : Z) (results : list BatchResult)
| InternalError (message : option string).

Record Response : Type := mkResponse {
  statusCode : Z;
  body : ResponseBody;
}.

Section Handler.
Context `{R : Runtime}.

(** [processPost] as the promise the batches wait for. *)
Definition processPostSettled (post : ScheduledPost) : list Effect * Settled PostResult :=
  let '(trace, result) := processPost post in (trace, Fulfilled result).

(** The exported handler, lines 15-99. *)
Definition handler (method : string) (pending : SelectOutcome)
    : list Effect * Response :=
  if String.eqb method "OPTIONS" then ([], {| statusCode := 204; body := NoBody |})
  else
    match pending with
    | SelectThrows err =>
        ([], {| statusCode := 500;
                body := InternalError
                          (match err with Error m => Some m | NonError => None end) |})
    | SelectError details =>
        ([], {| statusCode := 500; body := FetchFailed details |})
    | SelectData None => ([], {| statusCode := 200; body := NothingPending |})
    | SelectData (Some []) => ([], {| statusCode := 200; body := NothingPending |})
    | SelectData (Some pendingPosts) =>
        let '(trace, results) := processPostsInBatches processPostSettled pendingPosts in
        let successCount := Z.of_nat (length (List.filter succeeded results)) in
        let failCount :=
          Z.of_nat (length (List.filter (fun r => negb (succeeded r)) results)) in
        (trace,
         {| statusCode := 200;
            body := ProcessingComplete (Z.of_nat (length pendingPosts))
                      successCount failCount results |})
    end.

End Handler.
End WorkerRun.

(** ** useZapAnalytics.ts: the second auto-load effect, the module caches and
    the two lookup hooks *)

Module ZapLookups.
Import JS Zaplytics.

Section Effects.
Context `{U : Utils}.

(** Lines 456-497: whether the effect that watches the state arms
    [loadMoreZaps(true)] to extend the data backward. *)
Definition needsExtendedData (p : Props) (w : World) : bool :=
  if negb (truthy_str (pubkey p)) then false
  else
    let currentState := state w in
    let range := getDateRange (timeRange p) (customRange p) in
    let isCustomRange := isCustom (timeRange p) in
    let oldestCachedTimestamp := oldestCachedTimestamp (allReceiptsCache currentState) in
    let cacheCoversCustomRange :=
      (0 <? lengthZ (allReceiptsCache currentState))
      && (oldestCachedTimestamp <=? since range) in
    if isCustomRange && cacheCoversCustomRange then false
    else
      let BOUNDARY_TOLERANCE_SECONDS := 14400 in
      let withinBoundaryTolerance :=
        oldestCachedTimestamp <=? since range + BOUNDARY_TOLERANCE_SECONDS in
      let maxConsecutiveZeroResults := 3 in
      (0 <? lengthZ (receipts currentState))
      && (since range <? oldestCachedTimestamp)
      && negb withinBoundaryTolerance
      && negb (isLoading currentState)
      && negb (isComplete currentState)
      && autoLoadEnabled currentState
      && (consecutiveZeroResults currentState <? maxConsecutiveZeroResults).

End Effects.

(** The three module-level maps of the file (lines 48, 53 and 545). *)
Record ModuleCaches : Type := mkCaches {
  zapCache : gmap string (list ZapReceipt);
  profileCache : gmap string Profile;
  contentEventCache : gmap string Nostr.NostrEvent;
}.

(** [clearZapCaches], lines 59-62. *)
Definition clearZapCaches (c : ModuleCaches) : ModuleCaches :=
  {| zapCache := ∅; profileCache := ∅; contentEventCache := contentEventCache c |}.

(** The world of a mounted loader after [clearZapCaches]: the global map is
    empty, the React state is what it was. *)
Definition afterClearZapCaches (w : World) : World :=
  {| userZapCache := ∅; state := state w; isLoadingRef := isLoadingRef w |}.

(** *** [useZappedContent], lines 550-632 *)

Section Content.
(** [nostr.query([{ ids: chunk }], { signal })], settled. *)
Variable query : list string -> Settled (list Nostr.NostrEvent).

(** [processChunk], lines 589-596. *)
Definition processChunk (chunk : list string) : list Nostr.NostrEvent :=
  match query chunk with
  | Fulfilled events => events
  | Rejected _ => []
  end.

(** Lines 563-573: cached events go to the result, the other ids are kept
    for fetching. *)
Definition splitCached (eventIds : list string) (cache : gmap string Nostr.NostrEvent)
    : gmap string Nostr.NostrEvent * list string :=
  fold_left
    (fun acc eventId =>
       match cache !! eventId with
       | Some cached => (<[eventId := cached]> (fst acc), snd acc)
       | None => (fst acc, (snd acc ++ [eventId])%list)
       end)
    eventIds (∅, []).

(** Lines 598-617: the chunks, three at a time. *)
Definition fetchChunks (chunkList : list (list string)) : list Nostr.NostrEvent :=
  let maxConcurrent := 3%nat in
  fold_left
    (fun allEvents batch => (allEvents ++ concat (map processChunk batch))%list)
    (Chunks.chunks maxConcurrent chunkList) [].

(** Lines 620-623. *)
Definition storeEvents (allEvents : list Nostr.NostrEvent)
    (maps : gmap string Nostr.NostrEvent * gmap string Nostr.NostrEvent)
    : gmap string Nostr.NostrEvent * gmap string Nostr.NostrEvent :=
  fold_left
    (fun acc ev => (<[Nostr.id ev := ev]> (fst acc), <[Nostr.id ev := ev]> (snd acc)))
    allEvents maps.

(** The [queryFn]: the map it returns, the module cache afterwards, and the
    id lists it asked the relays for.  [eventIds] is the array as the function
    finds it, sorted in place by the [queryKey] expression of line 558. *)
Definition zappedContentQueryFn (eventIds : list string)
    (cache : gmap string Nostr.NostrEvent)
    : gmap string Nostr.NostrEvent * gmap string Nostr.NostrEvent * list (list string) :=
  match eventIds with
  | [] => (∅, cache, [])
  | _ =>
      let '(eventMap, uncachedEventIds) := splitCached eventIds cache in
      match uncachedEventIds with
      | [] => (eventMap, cache, [])
      | _ =>
          let chunkSize := 150%nat in
          let chunkList := Chunks.chunks chunkSize uncachedEventIds in
          let allEvents := fetchChunks chunkList in
          let '(eventMap', cache') := storeEvents allEvents (eventMap, cache) in
          (eventMap', cache', chunkList)
      end
  end.

End Content.

(** *** [useZapperProfiles], lines 637-718 *)

Section Profiles.
(** [nostr.query([{ kinds: [0], authors: chunk }], { signal })], settled, and
    [JSON.parse] on a profile's content. *)
Variable query : list string -> Settled (list Nostr.NostrEvent).
Variable parseMetadata : string -> Completion Profile.

Definition processProfileChunk (chunk : list string) : list Nostr.NostrEvent :=
  match query chunk with
  | Fulfilled profiles => profiles
  | Rejected _ => []
  end.

(** Lines 648-658. *)
Definition splitCachedProfiles (uniquePubkeys : list string) (cache : gmap string Profile)
    : gmap string Profile * list string :=
  fold_left
    (fun acc pk =>
       match cache !! pk with
       | Some cached => (<[pk := cached]> (fst acc), snd acc)
       | None => (fst acc, (snd acc ++ [pk])%list)
       end)
    uniquePubkeys (∅, []).

(** Lines 683-700. *)
Definition fetchProfileChunks (chunkList : list (list string)) : list Nostr.NostrEvent :=
  let maxConcurrent := 3%nat in
  fold_left
    (fun allProfiles batch =>
       (allProfiles ++ concat (map processProfileChunk batch))%list)
    (Chunks.chunks maxConcurrent chunkList) [].

(** Lines 703-711: a profile whose content does not parse is skipped. *)
Definition storeProfiles (allProfiles : list Nostr.NostrEvent)
    (maps : gmap string Profile * gmap string Profile)
    : gmap string Profile * gmap string Profile :=
  fold_left
    (fun acc profile =>
       match parseMetadata (Nostr.content profile) with
       | Normal metadata =>
           (<[Nostr.pubkey profile := metadata]> (fst acc),
            <[Nostr.pubkey profile := metadata]> (snd acc))
       | Throws _ => acc
       end)
    allProfiles maps.

(** The [queryFn].  [uniquePubkeys] is the array as the function finds it:
    [Array.from(new Set(pubkeys))], sorted in place by the [queryKey]
    expression of line 644. *)
Definition zapperProfilesQueryFn (uniquePubkeys : list string) (cache : gmap string Profile)
    : gmap string Profile * gmap string Profile * list (list string) :=
  match uniquePubkeys with
  | [] => (∅, cache, [])
  | _ =>
      let '(profileMap, uncachedPubkeys) := splitCachedProfiles uniquePubkeys cache in
      match uncachedPubkeys with
      | [] => (profileMap, cache, [])
      | _ =>
          let chunkSize := 100%nat in
          let chunkList := Chunks.chunks chunkSize uncachedPubkeys in
          let allProfiles := fetchProfileChunks chunkList in
          let '(profileMap', cache') := storeProfiles allProfiles (profileMap, cache) in
          (profileMap', cache', chunkList)
      end
  end.

End Profiles.
End ZapLookups.

(** ** Sample data

    A concrete instance of the parameters and a few receipts, for the
    examples below.  Times count seconds from an epoch in which [now] is
    10_000_000. *)

Module Sample.
Import JS Zaplytics.

Definition now : Z := 10000000.
Definition day : Z := 86400.

Definition receipt (i : string) (t : Z) : Nostr.NostrEvent :=
  {| Nostr.id := i; Nostr.pubkey := "provider"; Nostr.created_at := t;
     Nostr.kind := 9735; Nostr.tags := [["p"; "alice"]]; Nostr.content := "";
     Nostr.sig := "sig" |}.

Definition rangeOf (timeRange : TimeRange) (customRange : option CustomDateRange)
    : DateRange :=
  if String.eqb timeRange "custom" then
    match customRange with
    | Some {| from := Some f; to := Some t |} =>
        {| since := f / 1000; until := Some (t / 1000) |}
    | _ => {| since := now - 7 * day; until := Some now |}
    end
  else if String.eqb timeRange "24h" then {| since := now - day; until := Some now |}
  else if String.eqb timeRange "30d" then {| since := now - 30 * day; until := Some now |}
  else {| since := now - 7 * day; until := Some now |}.

#[export] Instance utils : Utils :=
  {| getDateRange := rangeOf;
     isValidZapReceipt := fun e => Nostr.kind e =? 9735 |}.

Definition a : Nostr.NostrEvent := receipt "a" (now - 1 * day).
Definition b : Nostr.NostrEvent := receipt "b" (now - 2 * day).
Definition c : Nostr.NostrEvent := receipt "c" (now - 6 * day).
Definition d : Nostr.NostrEvent := receipt "d" (now - 10 * day).
Definition ancient : Nostr.NostrEvent := receipt "z" 1.

(** A pool whose default relays return [a] and [b]; one extra relay returns
    [b] and [c], one rejects, and one cannot be built. *)
Definition pool : Nostr.NPool :=
  {| Nostr.query := fun _ => Fulfilled [a; b];
     Nostr.relay := fun url =>
       if String.eqb url "wss://one"
       then Normal {| Nostr.relay_query := fun _ => Normal (Fulfilled [b; c]) |}
       else if String.eqb url "wss://down"
       then Normal {| Nostr.relay_query := fun _ => Normal (Rejected (Error "timeout")) |}
       else Throws (Error "Invalid URL") |}.

(** Three sources with disjoint answers, the middle one rejecting. *)
Definition disjointPool : Nostr.NPool :=
  {| Nostr.query := fun _ => Fulfilled [a; b];
     Nostr.relay := fun url =>
       if String.eqb url "wss://one"
       then Normal {| Nostr.relay_query := fun _ => Normal (Fulfilled [c; d]) |}
       else Normal {| Nostr.relay_query := fun _ => Normal (Rejected (Error "timeout")) |} |}.

Definition alice7d : Props :=
  {| pubkey := Some "alice"; timeRange := "7d"; customRange := None |}.
Definition alice30d : Props :=
  {| pubkey := Some "alice"; timeRange := "30d"; customRange := None |}.
(** A custom window from the epoch until [now]. *)
Definition aliceSinceEpoch : Props :=
  {| pubkey := Some "alice"; timeRange := "custom";
     customRange := Some {| from := Some 0; to := Some (now * 1000) |} |}.

Definition emptyWorld : World :=
  {| userZapCache := ∅; state := initialState; isLoadingRef := false |}.

(** A source that answers every query with the same events. *)
Definition always (events : list Nostr.NostrEvent)
    : Nostr.NostrFilter -> Settled (list Nostr.NostrEvent) :=
  fun _ => Fulfilled events.

Definition failing : Nostr.NostrFilter -> Settled (list Nostr.NostrEvent) :=
  fun _ => Rejected (Error "relay unreachable").

(** A relay that holds [store] and answers as NIP-01 asks: the events inside
    [since, until], newest first, at most [limit] of them. *)
Definition honest (store : list Nostr.NostrEvent)
    : Nostr.NostrFilter -> Settled (list Nostr.NostrEvent) :=
  fun f =>
    let matches (e : Nostr.NostrEvent) :=
      match Nostr.since f with Some s => s <=? Nostr.created_at e | None => true end
      && match Nostr.until f with Some u => Nostr.created_at e <=? u | None => true end in
    Fulfilled (take (Z.to_nat (Nostr.limit f)) (sortDesc (List.filter matches store))).

End Sample.

(** * Properties *)

(** Closes [List.NoDup l] for a list of distinct string literals. *)
Ltac distinct_strings :=
  repeat (constructor; [simpl; intuition discriminate|]); constructor.

(** ** The insertion-ordered map behind the dedupe *)

Module MapFacts.
Import JS.

Section Keys.
Context {V : Type}.
Implicit Types (k : string) (v : V) (m es : list (string * V)).

Definition keys m : list string := map fst m.

(** [new Map(es)] with the entries already in [m] as a start. *)
Definition Map_extend m es : list (string * V) :=
  fold_left (fun acc kv => Map_set (fst kv) (snd kv) acc) es m.

Lemma Map_set_fresh k v m :
  ~ In k (keys m) -> Map_set k v m = (m ++ [(k, v)])%list.
Proof.
  induction m as [|[k' v'] m IH]; simpl; intros Hk; [reflexivity|].
  destruct (String.eqb_spec k' k) as [->|Hne].
  - exfalso. apply Hk. now left.
  - rewrite IH; [reflexivity|]. intros Hin. apply Hk. now right.
Qed.

Lemma Map_set_keys_present k v m :
  In k (keys m) -> keys (Map_set k v m) = keys m.
Proof.
  induction m as [|[k' v'] m IH]; simpl; intros Hk; [contradiction|].
  destruct (String.eqb_spec k' k) as [->|Hne]; simpl; [reflexivity|].
  f_equal. apply IH. destruct Hk as [Hk|Hk]; [contradiction|exact Hk].
Qed.

Lemma Map_set_keys k v m :
  keys (Map_set k v m) = keys m \/ keys (Map_set k v m) = (keys m ++ [k])%list.
Proof.
  destruct (in_dec string_dec k (keys m)) as [Hin|Hout].
  - left. now apply Map_set_keys_present.
  - right. rewrite Map_set_fresh by assumption. unfold keys. now rewrite map_app.
Qed.

Lemma Map_set_has_key k v m : In k (keys (Map_set k v m)).
Proof.
  induction m as [|[k' v'] m IH]; simpl; [now left|].
  destruct (String.eqb_spec k' k) as [->|Hne]; simpl; [now left|now right].
Qed.

Lemma Map_set_keeps_keys k v m k0 : In k0 (keys m) -> In k0 (keys (Map_set k v m)).
Proof.
  intros Hin. destruct (Map_set_keys k v m) as [->| ->]; [assumption|].
  apply in_or_app. now left.
Qed.

Lemma Map_set_NoDup k v m : List.NoDup (keys m) -> List.NoDup (keys (Map_set k v m)).
Proof.
  intros Hnd. destruct (in_dec string_dec k (keys m)) as [Hin|Hout].
  - now rewrite Map_set_keys_present.
  - rewrite Map_set_fresh by assumption. unfold keys. rewrite map_app. simpl.
    apply List.NoDup_app; [assumption| |].
    + constructor; [intros []|constructor].
    + intros x Hx [<-|[]]. contradiction.
Qed.

Lemma Map_set_entry k v m kv : In kv (Map_set k v m) -> kv = (k, v) \/ In kv m.
Proof.
  induction m as [|[k' v'] m IH]; simpl.
  - intros [<-|[]]. now left.
  - destruct (String.eqb_spec k' k) as [->|Hne]; simpl.
    + intros [<-|Hin]; [now left|right; now right].
    + intros [<-|Hin]; [right; now left|].
      destruct (IH Hin) as [->|Hm]; [now left|right; now right].
Qed.

Lemma Map_extend_NoDup es : forall m, List.NoDup (keys m) -> List.NoDup (keys (Map_extend m es)).
Proof.
  induction es as [|[k v] es IH]; intros m Hnd; simpl; [assumption|].
  apply IH. now apply Map_set_NoDup.
Qed.

Lemma Map_extend_entry es : forall m kv, In kv (Map_extend m es) -> In kv es \/ In kv m.
Proof.
  induction es as [|[k v] es IH]; intros m kv; simpl; [now right|].
  intros Hin. destruct (IH _ _ Hin) as [Hes|Hset]; [left; now right|].
  destruct (Map_set_entry _ _ _ _ Hset) as [->|Hm]; [left; now left|now right].
Qed.

Lemma Map_extend_keeps_keys es : forall m k, In k (keys m) -> In k (keys (Map_extend m es)).
Proof.
  induction es as [|[k v] es IH]; intros m k0 Hin; simpl; [assumption|].
  apply IH. now apply Map_set_keeps_keys.
Qed.

Lemma Map_extend_has_keys es : forall m k, In k (keys es) -> In k (keys (Map_extend m es)).
Proof.
  induction es as [|[k v] es IH]; intros m k0; simpl; [contradiction|].
  intros [<-|Hin]; [|now apply IH].
  apply Map_extend_keeps_keys, Map_set_has_key.
Qed.

Lemma Map_extend_distinct es :
  forall m, List.NoDup (keys m ++ keys es) -> Map_extend m es = (m ++ es)%list.
Proof.
  induction es as [|[k v] es IH]; intros m Hnd; simpl.
  - now rewrite app_nil_r.
  - simpl in Hnd.
    assert (Hk : ~ In k (keys m)).
    { intros Hin. apply NoDup_remove_2 in Hnd. apply Hnd, in_or_app. now left. }
    rewrite Map_set_fresh by assumption.
    rewrite IH.
    + now rewrite <- app_assoc.
    + unfold keys. rewrite map_app. simpl. rewrite <- app_assoc. exact Hnd.
Qed.

End Keys.
End MapFacts.

(** ** The fan-out query *)

Module QueryRelaysFacts.
Import JS QueryRelays MapFacts.

Definition entriesOf (events : list Nostr.NostrEvent) : list (string * Nostr.NostrEvent) :=
  map (fun e => (Nostr.id e, e)) events.

Lemma keys_entriesOf events : keys (entriesOf events) = Nostr.ids events.
Proof.
  unfold keys, entriesOf, Nostr.ids. rewrite map_map. reflexivity.
Qed.

Lemma dedupe_entries_keyed events kv :
  In kv (Map_new (entriesOf events)) -> fst kv = Nostr.id (snd kv) /\ In (snd kv) events.
Proof.
  intros Hin. apply (Map_extend_entry (entriesOf events) []) in Hin.
  destruct Hin as [Hin|[]].
  unfold entriesOf in Hin. apply in_map_iff in Hin as (e & <- & He). now split.
Qed.

Lemma dedupe_ids events :
  Nostr.ids (dedupeById events) = keys (Map_new (entriesOf events)).
Proof.
  unfold dedupeById, Map_values, Nostr.ids, keys. fold (entriesOf events).
  rewrite map_map. apply map_ext_in. intros kv Hin.
  symmetry. now apply dedupe_entries_keyed in Hin.
Qed.

Lemma dedupe_NoDup events : List.NoDup (Nostr.ids (dedupeById events)).
Proof.
  rewrite dedupe_ids. apply (Map_extend_NoDup (entriesOf events) []). constructor.
Qed.

Lemma dedupe_sound events e : In e (dedupeById events) -> In e events.
Proof.
  unfold dedupeById, Map_values. fold (entriesOf events).
  intros Hin. apply in_map_iff in Hin as (kv & <- & Hkv).
  now apply dedupe_entries_keyed in Hkv.
Qed.

Lemma dedupe_complete events e :
  In e events -> exists e', In e' (dedupeById events) /\ Nostr.id e' = Nostr.id e.
Proof.
  intros He.
  assert (Hk : In (Nostr.id e) (keys (Map_new (entriesOf events)))).
  { apply (Map_extend_has_keys (entriesOf events) []).
    rewrite keys_entriesOf. unfold Nostr.ids. now apply in_map. }
  rewrite <- dedupe_ids in Hk. unfold Nostr.ids in Hk.
  apply in_map_iff in Hk as (e' & Hid & He'). now exists e'.
Qed.

Lemma dedupe_distinct events :
  List.NoDup (Nostr.ids events) -> dedupeById events = events.
Proof.
  intros Hnd. unfold dedupeById. fold (entriesOf events).
  unfold Map_new. fold (Map_extend [] (entriesOf events)).
  rewrite Map_extend_distinct.
  - simpl. unfold Map_values, entriesOf. rewrite map_map. simpl. apply map_id.
  - simpl. now rewrite keys_entriesOf.
Qed.

(** An event is among [allEvents] exactly when a fulfilled sub-query returned it. *)
Lemma allEvents_spec results e :
  In e (allEvents results) <-> exists v, In (Fulfilled v) results /\ In e v.
Proof.
  unfold allEvents. rewrite in_flat_map. split.
  - intros (r & Hr & He). apply filter_In in Hr as [Hr Hf].
    destruct r as [v|err]; [|discriminate]. now exists v.
  - intros (v & Hv & He). exists (Fulfilled v). split; [|exact He].
    apply filter_In. now split.
Qed.

Lemma allEvents_cons_rejected err results :
  allEvents (Rejected err :: results) = allEvents results.
Proof. reflexivity. Qed.

Lemma allEvents_cons_fulfilled v results :
  allEvents (Fulfilled v :: results) = (v ++ allEvents results)%list.
Proof. reflexivity. Qed.

(** A relay that cannot be built, or whose [query] throws at the call, gives
    the fulfilled empty list. *)
Lemma relayPromise_unbuildable nostr filters url err :
  Nostr.relay nostr url = Throws err -> relayPromise nostr filters url = Fulfilled [].
Proof. unfold relayPromise. now intros ->. Qed.

(** C4. Every call of [queryWithNip65Fanout] fulfils, whatever its sub-queries
    do.  The events it returns have pairwise distinct ids, each was returned
    by a fulfilled sub-query, and every event of a fulfilled sub-query is
    represented by an event with the same id; a relay that cannot be built
    counts as a fulfilled empty result, and rejected sub-queries contribute
    nothing.  When all returned ids are distinct the result is exactly the
    concatenation of the fulfilled results; in particular with three sources,
    one rejecting and two returning disjoint sets [a] and [b], it is
    [a ++ b]. *)
Theorem fanout_partial_failure_is_success
    (nostr : Nostr.NPool) (filters : list Nostr.NostrFilter) (urls : list string) :
  let results := settledResults nostr filters urls in
  exists events,
    queryWithNip65Fanout nostr filters urls = Fulfilled events
    /\ List.NoDup (Nostr.ids events)
    /\ (forall e, In e events -> exists v, In (Fulfilled v) results /\ In e v)
    /\ (forall v e, In (Fulfilled v) results -> In e v ->
          exists e', In e' events /\ Nostr.id e' = Nostr.id e)
    /\ (forall url err, In url urls -> Nostr.relay nostr url = Throws err ->
          In (Fulfilled []) results)
    /\ (List.NoDup (Nostr.ids (allEvents results)) -> events = allEvents results)
    /\ (forall a b err,
          results = [Rejected err; Fulfilled a; Fulfilled b]
          \/ results = [Fulfilled a; Rejected err; Fulfilled b]
          \/ results = [Fulfilled a; Fulfilled b; Rejected err] ->
          List.NoDup (Nostr.ids (a ++ b)) -> events = (a ++ b)%list).
Proof.
  intros results. exists (dedupeById (allEvents results)).
  split; [reflexivity|]. split; [apply dedupe_NoDup|].
  split; [|split; [|split; [|split]]].
  - intros e He. apply allEvents_spec. now apply dedupe_sound.
  - intros v e Hv He. apply dedupe_complete. apply allEvents_spec. now exists v.
  - intros url err Hurl Hthrow. unfold results, settledResults. right.
    apply in_map_iff. exists url. split; [|exact Hurl].
    now apply relayPromise_unbuildable with (err := err).
  - apply dedupe_distinct.
  - intros a b err Hshape Hnd.
    assert (Hall : allEvents results = (a ++ b)%list).
    { destruct Hshape as [-> | [-> | ->]];
        rewrite ?allEvents_cons_rejected, ?allEvents_cons_fulfilled,
                ?allEvents_cons_rejected, ?allEvents_cons_fulfilled;
        unfold allEvents; simpl; now rewrite ?app_nil_r. }
    rewrite Hall. now apply dedupe_distinct.
Qed.

(** The scenario of the specification: the default relays return [a] and
    [b], an extra relay returns [b] and [c], one relay times out and one url
    is not a relay address. *)
Example fanout_overlapping_sources :
  queryWithNip65Fanout Sample.pool [] ["wss://one"; "wss://down"; "not a url"]
  = Fulfilled [Sample.a; Sample.b; Sample.c].
Proof. vm_compute. reflexivity. Qed.

(** Three sources, the second rejecting, the others disjoint. *)
Lemma fanout_partial_failure_witness :
  settledResults Sample.disjointPool [] ["wss://down"; "wss://one"]
  = [Fulfilled [Sample.a; Sample.b]; Rejected (Error "timeout");
     Fulfilled [Sample.c; Sample.d]]
  /\ queryWithNip65Fanout Sample.disjointPool [] ["wss://down"; "wss://one"]
     = Fulfilled [Sample.a; Sample.b; Sample.c; Sample.d].
Proof.
  split; [reflexivity|].
  destruct (fanout_partial_failure_is_success Sample.disjointPool []
              ["wss://down"; "wss://one"])
    as (events & Hcall & _ & _ & _ & _ & _ & Hthree).
  rewrite Hcall. f_equal.
  apply (Hthree [Sample.a; Sample.b] [Sample.c; Sample.d] (Error "timeout")).
  - right. left. reflexivity.
  - vm_compute. distinct_strings.
Defined.

End QueryRelaysFacts.

(** ** The receipt loader *)

Module LoaderFacts.
Import JS Zaplytics.

(** *** Sorting keeps the receipts *)

Lemma insertDesc_perm x l : Permutation (insertDesc x l) (x :: l).
Proof.
  induction l as [|y l IH]; simpl; [reflexivity|].
  destruct (Nostr.created_at x <? Nostr.created_at y); [|reflexivity].
  rewrite IH. apply perm_swap.
Qed.

Lemma sortDesc_perm l : Permutation (sortDesc l) l.
Proof.
  induction l as [|x l IH]; simpl; [reflexivity|].
  rewrite insertDesc_perm. now apply perm_skip.
Qed.

Lemma sortDesc_length l : length (sortDesc l) = length l.
Proof. apply Permutation_length, sortDesc_perm. Qed.

Lemma sortDesc_In l e : In e (sortDesc l) <-> In e l.
Proof.
  split; apply Permutation_in; [|symmetry]; apply sortDesc_perm.
Qed.

Lemma sortDesc_ids_perm l : Permutation (Nostr.ids (sortDesc l)) (Nostr.ids l).
Proof. unfold Nostr.ids. apply Permutation_map, sortDesc_perm. Qed.

(** The sort puts newer receipts first. *)
Inductive NewestFirst : list ZapReceipt -> Prop :=
| NewestFirst_nil : NewestFirst []
| NewestFirst_cons x l :
    Forall (fun y => Nostr.created_at y <= Nostr.created_at x) l ->
    NewestFirst l -> NewestFirst (x :: l).

Lemma insertDesc_sorted x l : NewestFirst l -> NewestFirst (insertDesc x l).
Proof.
  induction 1 as [|y l Hy Hl IH]; simpl.
  - constructor; constructor.
  - destruct (Z.ltb_spec (Nostr.created_at x) (Nostr.created_at y)) as [Hlt|Hge].
    + constructor; [|exact IH].
      apply List.Forall_forall. intros z Hz.
      apply (Permutation_in _ (insertDesc_perm x l)) in Hz.
      destruct Hz as [<-|Hz]; [lia|].
      rewrite List.Forall_forall in Hy. now apply Hy.
    + constructor; [|now constructor].
      constructor; [lia|].
      apply List.Forall_forall. intros z Hz. rewrite List.Forall_forall in Hy.
      specialize (Hy z Hz). lia.
Qed.

Lemma sortDesc_sorted l : NewestFirst (sortDesc l).
Proof.
  induction l as [|x l IH]; simpl; [constructor|]. now apply insertDesc_sorted.
Qed.

Lemma mergeReceipts_perm cache valid :
  Permutation (mergeReceipts cache valid) (cache ++ valid).
Proof. apply sortDesc_perm. Qed.

Lemma NoDup_ids_filter (f : Nostr.NostrEvent -> bool) l :
  List.NoDup (Nostr.ids l) -> List.NoDup (Nostr.ids (List.filter f l)).
Proof.
  unfold Nostr.ids. induction l as [|x l IH]; simpl; intros Hnd; [constructor|].
  apply List.NoDup_cons_iff in Hnd as [Hx Hl].
  destruct (f x); simpl; [|now apply IH].
  constructor; [|now apply IH].
  intros Hin. apply Hx. apply in_map_iff in Hin as (y & Hy & Hin).
  apply filter_In in Hin as [Hin _]. rewrite <- Hy. now apply in_map.
Qed.

Section Cycle.
Context `{U : Utils}.

Lemma validate_In events e :
  In e (validate events) <-> In e events /\ isValidZapReceipt e = true.
Proof. unfold validate. rewrite sortDesc_In. apply filter_In. Qed.

Lemma validate_NoDup events :
  List.NoDup (Nostr.ids events) -> List.NoDup (Nostr.ids (validate events)).
Proof.
  intros Hnd. unfold validate.
  apply (Permutation_NoDup (l := Nostr.ids (List.filter isValidZapReceipt events))).
  - symmetry. apply sortDesc_ids_perm.
  - now apply NoDup_ids_filter.
Qed.

(** What a cycle that is let through does, by the outcome of its attempt. *)
Lemma loadMoreZaps_blocked p attempt isAutomatic w :
  cycleBlocked p isAutomatic w = true ->
  loadMoreZaps p attempt isAutomatic w = (w, []).
Proof. unfold loadMoreZaps. now intros ->. Qed.

Lemma loadMoreZaps_success p attempt isAutomatic w events :
  cycleBlocked p isAutomatic w = false ->
  attempt (cycleFilter p isAutomatic (state w)) = Fulfilled events ->
  loadMoreZaps p attempt isAutomatic w =
    (let st' := onBatchSuccess p (validate events)
                  (requestedBatchSize isAutomatic (state w)) (startLoading (state w)) in
     {| userZapCache := <[default "" (pubkey p) := allReceiptsCache st']> (userZapCache w);
        state := st'; isLoadingRef := false |},
     [cycleFilter p isAutomatic (state w)]).
Proof. unfold loadMoreZaps. now intros -> ->. Qed.

Lemma loadMoreZaps_failure p attempt isAutomatic w reason :
  cycleBlocked p isAutomatic w = false ->
  attempt (cycleFilter p isAutomatic (state w)) = Rejected reason ->
  loadMoreZaps p attempt isAutomatic w =
    ({| userZapCache := userZapCache w;
        state := onBatchFailure reason (startLoading (state w));
        isLoadingRef := false |},
     [cycleFilter p isAutomatic (state w)]).
Proof. unfold loadMoreZaps. now intros -> ->. Qed.

(** The fan-out attempt never rejects and never returns an id twice. *)
Lemma fanoutAttempt_fulfils nostr relays filter :
  exists events,
    fanoutAttempt nostr relays filter = Fulfilled events
    /\ List.NoDup (Nostr.ids events).
Proof.
  unfold fanoutAttempt, QueryRelays.queryWithNip65Fanout.
  eexists. split; [reflexivity|]. apply QueryRelaysFacts.dedupe_NoDup.
Qed.

(** *** The per-subject cache under merges *)

(** C1, as the code has it. When the cached receipts have pairwise distinct
    ids and the fan-out query of a cycle returns no event whose id is already
    cached, the cache after the merge again holds every id exactly once; it
    is what [userZapCache] stores for the subject, and it consists of the old
    cache and the valid receipts of the batch.  (The merge concatenates and
    sorts; it does not compare ids.) *)
Theorem merge_keeps_ids_distinct
    (p : Props) (nostr : Nostr.NPool) (relays : list string)
    (isAutomatic : bool) (w : World) (events : list Nostr.NostrEvent) :
  cycleBlocked p isAutomatic w = false ->
  fanoutAttempt nostr relays (cycleFilter p isAutomatic (state w)) = Fulfilled events ->
  List.NoDup (Nostr.ids (allReceiptsCache (state w))) ->
  (forall e, In e events -> ~ In (Nostr.id e) (Nostr.ids (allReceiptsCache (state w)))) ->
  let w' := fst (loadMoreZaps p (fanoutAttempt nostr relays) isAutomatic w) in
  List.NoDup (Nostr.ids (allReceiptsCache (state w')))
  /\ userZapCache w' !! default "" (pubkey p) = Some (allReceiptsCache (state w'))
  /\ Permutation (allReceiptsCache (state w'))
       (allReceiptsCache (state w) ++ validate events).
Proof.
  intros Hgo Hfetch Hcache Hfresh w'. subst w'.
  rewrite (loadMoreZaps_success _ _ _ _ _ Hgo Hfetch). cbn [fst state userZapCache].
  assert (Hperm : Permutation
            (allReceiptsCache
               (onBatchSuccess p (validate events)
                  (requestedBatchSize isAutomatic (state w)) (startLoading (state w))))
            (allReceiptsCache (state w) ++ validate events)).
  { cbn [onBatchSuccess allReceiptsCache startLoading]. apply mergeReceipts_perm. }
  split; [|split; [apply lookup_insert_eq|exact Hperm]].
  apply (Permutation_NoDup
           (l := Nostr.ids (allReceiptsCache (state w) ++ validate events))).
  { unfold Nostr.ids. apply Permutation_map. now symmetry. }
  unfold Nostr.ids. rewrite map_app. apply List.NoDup_app.
  - exact Hcache.
  - apply validate_NoDup.
    destruct (fanoutAttempt_fulfils nostr relays (cycleFilter p isAutomatic (state w)))
      as (events' & Heq & Hnd).
    rewrite Hfetch in Heq. now injection Heq as ->.
  - intros i Hi Hi'. apply in_map_iff in Hi' as (e & <- & He).
    apply validate_In in He as [He _]. now apply (Hfresh e).
Qed.

(** *** The window-filtered view *)




(** *** Completion *)

Lemma lengthZ_zero {A} (l : list A) : lengthZ l = 0 <-> l = [].
Proof.
  unfold lengthZ. destruct l; simpl; split; intros H; try reflexivity; try discriminate; lia.
Qed.

Lemma oldestTimestamp_none (l : list ZapReceipt) : oldestTimestamp l = None <-> l = [].
Proof. destruct l; simpl; split; intros H; try reflexivity; discriminate. Qed.

Lemma cycle_starts_incomplete p isAutomatic w :
  cycleBlocked p isAutomatic w = false ->
  truthy_str (pubkey p) = true /\ isLoadingRef w = false /\ isComplete (state w) = false.
Proof.
  unfold cycleBlocked. intros H. apply orb_false_iff in H as [H _].
  apply orb_false_iff in H as [H Hc]. apply orb_false_iff in H as [Hp Hl].
  apply negb_false_iff in Hp. now repeat split.
Qed.

(** The decision of lines 301-320, read as a disjunction. *)
Lemma completionAfter_spec timeRange range (validReceipts : list ZapReceipt)
    detectedLimit batchSize :
  let returned := lengthZ validReceipts in
  completionAfter timeRange range validReceipts detectedLimit batchSize = true <->
  (returned = 0 /\ since range <> 0)
  \/ (returned <> 0 /\ returned < or_else detectedLimit batchSize)
  \/ (isCustom timeRange = false
      /\ exists oldest, oldestTimestamp validReceipts = Some oldest
           /\ oldest <= since range + BOUNDARY_TOLERANCE_SECONDS).
Proof.
  unfold completionAfter, lengthZ.
  set (returned := Z.of_nat (length validReceipts)).
  set (effective := or_else detectedLimit batchSize). cbv zeta.
  destruct (Z.eqb_spec returned 0) as [Hz|Hnz].
  - apply lengthZ_zero in Hz as Hnil.
    unfold truthy. destruct (Z.eqb_spec (since range) 0) as [Hs|Hs]; simpl.
    + split; [discriminate|].
      intros [[_ H]|[[H _]|(_ & o & Ho & _)]]; try contradiction.
      rewrite Hnil in Ho. discriminate.
    + split; [intros _; left; now split|reflexivity].
  - destruct (Z.ltb_spec returned effective) as [Hlt|Hge]; simpl.
    + split; [intros _; right; left; now split|].
      intros _. now destruct (isCustom timeRange).
    + destruct (isCustom timeRange) eqn:Hc; simpl.
      * split; [discriminate|].
        intros [[H _]|[[_ H]|[H _]]]; [contradiction|lia|discriminate].
      * destruct (oldestTimestamp validReceipts) as [o|] eqn:Ho.
        -- destruct (Z.leb_spec o (since range + BOUNDARY_TOLERANCE_SECONDS))
             as [Hle|Hgt].
           ++ split; [intros _; right; right; split; [reflexivity|now exists o]|
                      reflexivity].
           ++ split; [discriminate|].
              intros [[H _]|[[_ H]|(_ & o' & Ho' & Hle)]];
                [contradiction|lia|].
              injection Ho' as <-. lia.
        -- apply oldestTimestamp_none in Ho. apply lengthZ_zero in Ho.
           contradiction.
Qed.

(** The detection of lines 296-299 on a short, non-empty batch. *)
Lemma detectLimit_short validCount batchSize prevLimit :
  0 < validCount -> validCount < batchSize ->
  detectLimit validCount batchSize prevLimit
  = Some (Z.max validCount ZAP_FETCH_CONFIG.MIN_BATCH_SIZE).
Proof.
  intros Hpos Hlt. unfold detectLimit.
  destruct (Z.ltb_spec validCount batchSize); [|lia].
  destruct (Z.ltb_spec 0 validCount); [reflexivity|lia].
Qed.


(** *** The adaptive batch size *)

(** What can happen to the loader of one subject between two cycles: a cycle
    (manual or automatic, on whatever window is shown), a change of window,
    and the two buttons. *)
Inductive Action : Type :=
| Load (p : Props) (isAutomatic : bool)
       (attempt : Nostr.NostrFilter -> Settled (list Nostr.NostrEvent))
| SwitchWindow (p : Props)
| ToggleAuto
| RestartAuto.

Definition act (a : Action) (w : World) : World :=
  match a with
  | Load p isAutomatic attempt => fst (loadMoreZaps p attempt isAutomatic w)
  | SwitchWindow p => onTimeRangeChange p w
  | ToggleAuto => toggleAutoLoad w
  | RestartAuto => restartAutoLoad w
  end.

Definition run (actions : list Action) (w : World) : World :=
  fold_left (fun w a => act a w) actions w.

(** The detected limit is set, at least [MIN_BATCH_SIZE] and at most [L]. *)
Definition limitedBy (L : Z) (st : ZapLoadingState) : Prop :=
  exists L', relayLimit st = Some L' /\ ZAP_FETCH_CONFIG.MIN_BATCH_SIZE <= L' <= L.

Lemma requested_within_limit isAutomatic st L :
  limitedBy L st ->
  requestedBatchSize isAutomatic st <= L
  /\ requestedBatchSize isAutomatic st <= ZAP_FETCH_CONFIG.MAX_BATCH_SIZE.
Proof.
  intros (L' & HL & Hlo & Hhi). unfold requestedBatchSize. rewrite HL.
  unfold ZAP_FETCH_CONFIG.MIN_BATCH_SIZE in Hlo.
  assert (Hor : forall dflt, or_else (Some L') dflt = L').
  { intros dflt. unfold or_else, truthy.
    destruct (Z.eqb_spec L' 0); [lia|reflexivity]. }
  rewrite !Hor. destruct (isAutomatic && (0 <? currentBatch st)); lia.
Qed.

Lemma detectLimit_within validCount batchSize L L' :
  ZAP_FETCH_CONFIG.MIN_BATCH_SIZE <= L' <= L -> batchSize <= L' ->
  exists L'', detectLimit validCount batchSize (Some L') = Some L''
              /\ ZAP_FETCH_CONFIG.MIN_BATCH_SIZE <= L'' <= L.
Proof.
  intros [Hlo Hhi] Hbs. unfold detectLimit.
  destruct (Z.ltb_spec validCount batchSize); simpl;
    [destruct (Z.ltb_spec 0 validCount); simpl|];
    eexists; (split; [reflexivity|]); lia.
Qed.

Lemma act_keeps_limit L a w : limitedBy L (state w) -> limitedBy L (state (act a w)).
Proof.
  intros Hlim. destruct a as [p isAutomatic attempt|p| |]; simpl.
  - unfold loadMoreZaps.
    destruct (cycleBlocked p isAutomatic w); [exact Hlim|].
    destruct (attempt _) as [events|reason]; simpl; [|exact Hlim].
    destruct Hlim as (L' & HL & Hb). unfold limitedBy. simpl. rewrite HL.
    apply detectLimit_within; [exact Hb|].
    destruct (requested_within_limit isAutomatic (state w) L') as [Hreq _]; [|exact Hreq].
    exists L'. split; [exact HL|lia].
  - unfold onTimeRangeChange, initFromCache.
    destruct (negb (truthy_str (pubkey p))); exact Hlim.
  - exact Hlim.
  - exact Hlim.
Qed.

Lemma run_keeps_limit L actions : forall w,
  limitedBy L (state w) -> limitedBy L (state (run actions w)).
Proof.
  induction actions as [|a actions IH]; intros w Hlim; simpl; [exact Hlim|].
  apply IH. now apply act_keeps_limit.
Qed.

Lemma issued_filter_limit p attempt isAutomatic w f :
  In f (snd (loadMoreZaps p attempt isAutomatic w)) ->
  Nostr.limit f = requestedBatchSize isAutomatic (state w).
Proof.
  unfold loadMoreZaps. destruct (cycleBlocked p isAutomatic w); simpl; [contradiction|].
  destruct (attempt _); simpl; intros [<-|[]]; reflexivity.
Qed.

(** C3. A successful cycle whose batch holds [K] valid receipts, with [K]
    non-zero and below the size asked for, leaves
    [relayLimit = max(K, MIN_BATCH_SIZE)].  From then on, whatever cycles,
    window changes and button presses follow for the subject, every size asked
    for — and the [limit] of every filter sent — is at most that limit and at
    most [MAX_BATCH_SIZE]. *)
Theorem limit_detected_and_respected
    (p : Props) (attempt : Nostr.NostrFilter -> Settled (list Nostr.NostrEvent))
    (isAutomatic : bool) (w : World) (events : list Nostr.NostrEvent) :
  cycleBlocked p isAutomatic w = false ->
  attempt (cycleFilter p isAutomatic (state w)) = Fulfilled events ->
  let K := lengthZ (validate events) in
  K <> 0 ->
  K < requestedBatchSize isAutomatic (state w) ->
  let w1 := fst (loadMoreZaps p attempt isAutomatic w) in
  let L := Z.max K ZAP_FETCH_CONFIG.MIN_BATCH_SIZE in
  relayLimit (state w1) = Some L
  /\ forall (actions : list Action) (isAutomatic' : bool),
       let w2 := run actions w1 in
       requestedBatchSize isAutomatic' (state w2) <= L
       /\ requestedBatchSize isAutomatic' (state w2) <= ZAP_FETCH_CONFIG.MAX_BATCH_SIZE
       /\ forall p' attempt' f,
            In f (snd (loadMoreZaps p' attempt' isAutomatic' w2)) ->
            Nostr.limit f <= L /\ Nostr.limit f <= ZAP_FETCH_CONFIG.MAX_BATCH_SIZE.
Proof.
  intros Hgo Hfetch K HK Hlt w1 L.
  assert (Hlimit : relayLimit (state w1) = Some L).
  { subst w1. rewrite (loadMoreZaps_success _ _ _ _ _ Hgo Hfetch).
    cbn [fst state onBatchSuccess relayLimit]. fold K.
    apply detectLimit_short; [unfold K, lengthZ in *; lia|exact Hlt]. }
  split; [exact Hlimit|].
  intros actions isAutomatic' w2.
  assert (Hlim : limitedBy L (state w2)).
  { apply run_keeps_limit. exists L. split; [exact Hlimit|]. unfold L. lia. }
  destruct (requested_within_limit isAutomatic' _ _ Hlim) as [HL HM].
  split; [exact HL|]. split; [exact HM|].
  intros p' attempt' f Hf. rewrite (issued_filter_limit _ _ _ _ _ Hf). now split.
Qed.

(** *** Walking backward from the oldest cached receipt *)




(** *** The failure counter *)

(** C6, as the code has it.  A failed cycle adds one to
    [consecutiveFailures], and afterwards [autoLoadEnabled] is [false] exactly
    when the count has reached [MAX_CONSECUTIVE_FAILURES]; from that count on
    automatic cycles are refused.  A manual load-more is still let through in
    that state; it resets the count to [0] when it succeeds and adds one more
    when it fails.  [restartAutoLoad] resets the count and re-enables
    automatic loading. *)
Theorem failure_circuit_breaker
    (p : Props) (attempt : Nostr.NostrFilter -> Settled (list Nostr.NostrEvent))
    (isAutomatic : bool) (w : World) (reason : Thrown) :
  cycleBlocked p isAutomatic w = false ->
  attempt (cycleFilter p isAutomatic (state w)) = Rejected reason ->
  let w1 := fst (loadMoreZaps p attempt isAutomatic w) in
  consecutiveFailures (state w1) = consecutiveFailures (state w) + 1
  /\ (autoLoadEnabled (state w1) = false <->
      ZAP_FETCH_CONFIG.MAX_CONSECUTIVE_FAILURES <= consecutiveFailures (state w1))
  /\ (ZAP_FETCH_CONFIG.MAX_CONSECUTIVE_FAILURES <= consecutiveFailures (state w1) ->
      cycleBlocked p true w1 = true)
  /\ cycleBlocked p false w1 = false
  /\ (forall attempt' events',
        attempt' (cycleFilter p false (state w1)) = Fulfilled events' ->
        consecutiveFailures (state (fst (manualLoadMore p attempt' w1))) = 0)
  /\ (forall attempt' reason',
        attempt' (cycleFilter p false (state w1)) = Rejected reason' ->
        consecutiveFailures (state (fst (manualLoadMore p attempt' w1)))
        = consecutiveFailures (state w1) + 1)
  /\ consecutiveFailures (state (restartAutoLoad w1)) = 0
  /\ autoLoadEnabled (state (restartAutoLoad w1)) = true.
Proof.
  intros Hgo Hfetch w1.
  destruct (cycle_starts_incomplete _ _ _ Hgo) as (Hpk & _ & Hinc).
  assert (Hw1 : w1 = {| userZapCache := userZapCache w;
                         state := onBatchFailure reason (startLoading (state w));
                         isLoadingRef := false |}).
  { subst w1. now rewrite (loadMoreZaps_failure _ _ _ _ _ Hgo Hfetch). }
  assert (Hmanual : cycleBlocked p false w1 = false).
  { rewrite Hw1. unfold cycleBlocked. cbn. rewrite Hpk, Hinc. reflexivity. }
  split; [now rewrite Hw1|]. split; [|split; [|split; [exact Hmanual|]]].
  - rewrite Hw1. cbn. rewrite Z.ltb_ge. reflexivity.
  - rewrite Hw1. unfold cycleBlocked. cbn. intros Hmax.
    apply Z.leb_le in Hmax. rewrite Hmax.
    now rewrite !orb_true_r.
  - split; [|split; [|split]].
    + intros attempt' events' Hok. unfold manualLoadMore.
      now rewrite (loadMoreZaps_success _ _ _ _ _ Hmanual Hok).
    + intros attempt' reason' Hko. unfold manualLoadMore.
      now rewrite (loadMoreZaps_failure _ _ _ _ _ Hmanual Hko).
    + reflexivity.
    + reflexivity.
Qed.

(** *** Further properties of the loader *)

(** A successful merge only adds: the cache grows by the number of valid
    receipts in the batch and keeps every receipt it held. *)
Theorem cache_grows_by_batch
    (p : Props) (attempt : Nostr.NostrFilter -> Settled (list Nostr.NostrEvent))
    (isAutomatic : bool) (w : World) (events : list Nostr.NostrEvent) :
  cycleBlocked p isAutomatic w = false ->
  attempt (cycleFilter p isAutomatic (state w)) = Fulfilled events ->
  let w' := fst (loadMoreZaps p attempt isAutomatic w) in
  lengthZ (allReceiptsCache (state w'))
  = lengthZ (allReceiptsCache (state w)) + lengthZ (validate events)
  /\ forall r, In r (allReceiptsCache (state w)) -> In r (allReceiptsCache (state w')).
Proof.
  intros Hgo Hfetch w'. subst w'.
  rewrite (loadMoreZaps_success _ _ _ _ _ Hgo Hfetch).
  cbn [fst state onBatchSuccess allReceiptsCache startLoading].
  pose proof (mergeReceipts_perm (allReceiptsCache (state w)) (validate events)) as Hperm.
  split.
  - unfold lengthZ. rewrite (Permutation_length Hperm), length_app. lia.
  - intros r Hr. apply (Permutation_in r (Permutation_sym Hperm)).
    apply in_or_app. now left.
Qed.

(** The detected limit is either unknown or at least [MIN_BATCH_SIZE]. *)
Definition limitAdmissible (st : ZapLoadingState) : Prop :=
  match relayLimit st with
  | Some L => ZAP_FETCH_CONFIG.MIN_BATCH_SIZE <= L
  | None => True
  end.

Lemma act_keeps_admissible a w : limitAdmissible (state w) -> limitAdmissible (state (act a w)).
Proof.
  intros Hadm. destruct a as [p isAutomatic attempt|p| |]; simpl; try exact Hadm.
  - unfold loadMoreZaps.
    destruct (cycleBlocked p isAutomatic w); [exact Hadm|].
    destruct (attempt _) as [events|reason]; simpl; [|exact Hadm].
    unfold limitAdmissible in *.
    cbn [state relayLimit onBatchSuccess startLoading]. unfold detectLimit.
    match goal with |- context [if ?c then _ else _] => destruct c end;
      [lia|exact Hadm].
  - unfold onTimeRangeChange, initFromCache.
    destruct (negb (truthy_str (pubkey p))); exact Hadm.
Qed.

Lemma requested_when_admissible isAutomatic st :
  limitAdmissible st ->
  ZAP_FETCH_CONFIG.MIN_BATCH_SIZE <= requestedBatchSize isAutomatic st
  <= ZAP_FETCH_CONFIG.MAX_BATCH_SIZE.
Proof.
  unfold limitAdmissible, requestedBatchSize, or_else, truthy,
    ZAP_FETCH_CONFIG.MIN_BATCH_SIZE, ZAP_FETCH_CONFIG.MAX_BATCH_SIZE,
    ZAP_FETCH_CONFIG.INITIAL_BATCH_SIZE.
  destruct (relayLimit st) as [L|]; intros Hadm.
  - destruct (Z.eqb_spec L 0); [lia|]. simpl.
    destruct (isAutomatic && (0 <? currentBatch st)); lia.
  - destruct (isAutomatic && (0 <? currentBatch st)); lia.
Qed.

(** From the reset that a change of subject (or the first mount) performs,
    whatever follows for the subject, every size asked for lies between
    [MIN_BATCH_SIZE] and [MAX_BATCH_SIZE]. *)
Theorem batch_size_within_bounds
    (p : Props) (w : World) (actions : list Action) (isAutomatic : bool) :
  let w' := run actions (onUserChange p w) in
  ZAP_FETCH_CONFIG.MIN_BATCH_SIZE <= requestedBatchSize isAutomatic (state w')
  <= ZAP_FETCH_CONFIG.MAX_BATCH_SIZE.
Proof.
  intros w'. apply requested_when_admissible. subst w'.
  assert (Hstart : limitAdmissible (state (onUserChange p w))) by exact I.
  revert Hstart. generalize (onUserChange p w).
  induction actions as [|a actions IH]; intros w0 Hadm; simpl; [exact Hadm|].
  apply IH. now apply act_keeps_admissible.
Qed.

(** A batch that is short of the size asked for completes the window only
    when it is shorter than [MIN_BATCH_SIZE], or when, on a preset window, its
    oldest receipt is within an hour of [since]. *)
Theorem short_batch_completion
    (p : Props) (attempt : Nostr.NostrFilter -> Settled (list Nostr.NostrEvent))
    (isAutomatic : bool) (w : World) (events : list Nostr.NostrEvent) :
  cycleBlocked p isAutomatic w = false ->
  attempt (cycleFilter p isAutomatic (state w)) = Fulfilled events ->
  let K := lengthZ (validate events) in
  K <> 0 ->
  K < requestedBatchSize isAutomatic (state w) ->
  let st' := state (fst (loadMoreZaps p attempt isAutomatic w)) in
  let range := getDateRange (timeRange p) (customRange p) in
  isComplete st' = true <->
  K < ZAP_FETCH_CONFIG.MIN_BATCH_SIZE
  \/ (isCustom (timeRange p) = false
      /\ exists oldest, oldestTimestamp (validate events) = Some oldest
           /\ oldest <= since range + BOUNDARY_TOLERANCE_SECONDS).
Proof.
  intros Hgo Hfetch K HK Hlt st' range. subst st'.
  rewrite (loadMoreZaps_success _ _ _ _ _ Hgo Hfetch).
  cbn [fst state onBatchSuccess isComplete relayLimit startLoading].
  rewrite completionAfter_spec. fold K range.
  assert (HK0 : 0 < K) by (unfold K, lengthZ in *; lia).
  rewrite (detectLimit_short _ _ _ HK0 Hlt).
  assert (Heff : or_else (Some (Z.max K ZAP_FETCH_CONFIG.MIN_BATCH_SIZE))
                   (requestedBatchSize isAutomatic (state w))
                 = Z.max K ZAP_FETCH_CONFIG.MIN_BATCH_SIZE).
  { unfold or_else, truthy, ZAP_FETCH_CONFIG.MIN_BATCH_SIZE.
    destruct (Z.eqb_spec (Z.max K 250) 0); [lia|reflexivity]. }
  rewrite Heff. unfold ZAP_FETCH_CONFIG.MIN_BATCH_SIZE. split.
  - intros [[H _]|[[_ H]|H]]; [contradiction|left; lia|now right].
  - intros [H|H]; [right; left; split; [exact HK|lia]|right; now right].
Qed.

(** A change of subject puts the loader back to its initial state and leaves
    [userZapCache] as it is; the cycle that follows starts from the window's
    own [until], and what it stores under the subject is its own batch — an
    entry the subject had before is replaced, not merged. *)
Theorem subject_change_restarts_pagination
    (p : Props) (attempt : Nostr.NostrFilter -> Settled (list Nostr.NostrEvent))
    (isAutomatic : bool) (w : World) (events : list Nostr.NostrEvent) :
  let w0 := onUserChange p w in
  cycleBlocked p isAutomatic w0 = false ->
  attempt (cycleFilter p isAutomatic (state w0)) = Fulfilled events ->
  let range := getDateRange (timeRange p) (customRange p) in
  let w' := fst (loadMoreZaps p attempt isAutomatic w0) in
  state w0 = initialState
  /\ userZapCache w0 = userZapCache w
  /\ Nostr.until (cycleFilter p isAutomatic (state w0))
     = (if truthy_opt (until range) then until range else None)
  /\ exists stored,
       userZapCache w' !! default "" (pubkey p) = Some stored
       /\ allReceiptsCache (state w') = stored
       /\ Permutation stored (validate events).
Proof.
  intros w0 Hgo Hfetch range w'.
  split; [reflexivity|].
  split.
  { unfold w0, onUserChange, resetOnUserChange, initFromCache. cbn [userZapCache].
    now destruct (negb (truthy_str (pubkey p))). }
  split; [reflexivity|].
  subst w'. rewrite (loadMoreZaps_success _ _ _ _ _ Hgo Hfetch).
  cbn [fst state userZapCache]. eexists. split; [apply lookup_insert_eq|].
  split; [reflexivity|].
  cbn [onBatchSuccess allReceiptsCache]. apply mergeReceipts_perm.
Qed.

End Cycle.

(** *** The same, on the sample data *)

#[local] Existing Instance Sample.utils.

(** A first cycle on the 7-day window stores [a]; the window is widened to 30
    days; the next cycle receives [a] once more.  Both cycles succeed, and the
    cache then holds the id of [a] twice. *)
Lemma overlapping_cycles_duplicate :
  let w1 := fst (loadMoreZaps Sample.alice7d (Sample.always [Sample.a]) true Sample.emptyWorld) in
  let w2 := onTimeRangeChange Sample.alice30d w1 in
  let w3 := fst (loadMoreZaps Sample.alice30d (Sample.always [Sample.a]) true w2) in
  cycleBlocked Sample.alice7d true Sample.emptyWorld = false
  /\ cycleBlocked Sample.alice30d true w2 = false
  /\ allReceiptsCache (state w1) = [Sample.a]
  /\ allReceiptsCache (state w3) = [Sample.a; Sample.a]
  /\ userZapCache w3 !! "alice" = Some [Sample.a; Sample.a]
  /\ ~ List.NoDup (Nostr.ids (allReceiptsCache (state w3))).
Proof.
  cbv zeta. repeat split; try (vm_compute; reflexivity).
  intros Hnd. vm_compute in Hnd. apply List.NoDup_cons_iff in Hnd as [Hin _].
  apply Hin. now left.
Qed.

Lemma merge_keeps_ids_distinct_witness :
  let w := onTimeRangeChange Sample.alice30d
             (fst (loadMoreZaps Sample.alice7d (Sample.always [Sample.d]) false
                     Sample.emptyWorld)) in
  let relays := ["wss://one"; "wss://down"; "not a url"] in
  let w' := fst (loadMoreZaps Sample.alice30d (fanoutAttempt Sample.pool relays) false w) in
  allReceiptsCache (state w) = [Sample.d]
  /\ List.NoDup (Nostr.ids (allReceiptsCache (state w')))
  /\ userZapCache w' !! default "" (pubkey Sample.alice30d)
     = Some (allReceiptsCache (state w'))
  /\ Permutation (allReceiptsCache (state w'))
       (allReceiptsCache (state w) ++ validate [Sample.a; Sample.b; Sample.c]).
Proof.
  cbv zeta. split; [vm_compute; reflexivity|].
  apply (merge_keeps_ids_distinct Sample.alice30d Sample.pool
           ["wss://one"; "wss://down"; "not a url"] false
           (onTimeRangeChange Sample.alice30d
              (fst (loadMoreZaps Sample.alice7d (Sample.always [Sample.d]) false
                      Sample.emptyWorld)))
           [Sample.a; Sample.b; Sample.c]).
  - vm_compute. reflexivity.
  - vm_compute. reflexivity.
  - vm_compute. distinct_strings.
  - intros e He Hin. simpl in He.
    destruct He as [<-|[<-|[<-|[]]]]; vm_compute in Hin; intuition discriminate.
Defined.



(** The same cycle detects the limit 250; after a change of window and one
    more automatic cycle the size asked for is still within it. *)
Lemma limit_detected_and_respected_witness :
  let w1 := fst (loadMoreZaps Sample.alice7d (Sample.always [Sample.a; Sample.b]) true
                   Sample.emptyWorld) in
  let later := [SwitchWindow Sample.alice30d;
                Load Sample.alice30d true (Sample.always [Sample.c])] in
  relayLimit (state w1) = Some 250
  /\ requestedBatchSize true (state (run later w1)) <= 250.
Proof.
  cbv zeta.
  destruct (limit_detected_and_respected Sample.alice7d
              (Sample.always [Sample.a; Sample.b]) true Sample.emptyWorld
              [Sample.a; Sample.b] eq_refl eq_refl)
    as (Hlimit & Hlater).
  - vm_compute. discriminate.
  - vm_compute. reflexivity.
  - split; [exact Hlimit|].
    apply (Hlater [SwitchWindow Sample.alice30d;
                   Load Sample.alice30d true (Sample.always [Sample.c])] true).
Defined.


(** C5 at a cache whose oldest receipt carries the timestamp 1.  An honest
    relay holds [a] and [ancient]; a cycle on a custom window that starts at
    the epoch stores both; the window is switched to 7 days and back.  The
    next cycle is let through, the bound it computes is [min(1 - 1, until) = 0],
    and the filter it sends has no [until]: the relay answers with the same
    two receipts, which the merge stores a second time. *)
Lemma until_dropped_when_bound_is_zero :
  let relay := Sample.honest [Sample.a; Sample.ancient] in
  let p := Sample.aliceSinceEpoch in
  let w1 := fst (loadMoreZaps p relay true Sample.emptyWorld) in
  let w2 := onTimeRangeChange p (onTimeRangeChange Sample.alice7d w1) in
  let range := getDateRange (timeRange p) (customRange p) in
  range = {| since := 0; until := Some Sample.now |}
  /\ allReceiptsCache (state w2) = [Sample.a; Sample.ancient]
  /\ oldestTimestamp (allReceiptsCache (state w2)) = Some 1
  /\ cycleBlocked p false w2 = false
  /\ currentUntil (timeRange p) range (allReceiptsCache (state w2)) = Some 0
  /\ Nostr.until (cycleFilter p false (state w2)) = None
  /\ allReceiptsCache (state (fst (loadMoreZaps p relay false w2)))
     = [Sample.a; Sample.a; Sample.ancient; Sample.ancient].
Proof. cbv zeta. repeat split; vm_compute; reflexivity. Qed.

(** Two failures, then a third. *)
Lemma failure_circuit_breaker_witness :
  let w2 := run [Load Sample.alice7d true Sample.failing;
                 Load Sample.alice7d true Sample.failing] Sample.emptyWorld in
  let w3 := fst (loadMoreZaps Sample.alice7d Sample.failing true w2) in
  consecutiveFailures (state w3) = 3
  /\ autoLoadEnabled (state w3) = false
  /\ cycleBlocked Sample.alice7d true w3 = true
  /\ cycleBlocked Sample.alice7d false w3 = false
  /\ consecutiveFailures
       (state (fst (manualLoadMore Sample.alice7d (Sample.always [Sample.a]) w3))) = 0.
Proof.
  cbv zeta.
  destruct (failure_circuit_breaker Sample.alice7d Sample.failing true
              (run [Load Sample.alice7d true Sample.failing;
                    Load Sample.alice7d true Sample.failing] Sample.emptyWorld)
              (Error "relay unreachable") eq_refl eq_refl)
    as (Hcount & Hauto & Hblocked & Hmanual & Hreset & _).
  split; [rewrite Hcount; vm_compute; reflexivity|].
  split; [apply Hauto; rewrite Hcount; vm_compute; discriminate|].
  split; [apply Hblocked; rewrite Hcount; vm_compute; discriminate|].
  split; [exact Hmanual|].
  apply (Hreset (Sample.always [Sample.a]) [Sample.a]). reflexivity.
Defined.

(** Three failures switch automatic loading off; a manual load-more is let
    through, fails as well, and the count goes to four. *)
Lemma failed_manual_retry_keeps_counting :
  let w3 := run [Load Sample.alice7d true Sample.failing;
                 Load Sample.alice7d true Sample.failing;
                 Load Sample.alice7d true Sample.failing] Sample.emptyWorld in
  let w4 := fst (manualLoadMore Sample.alice7d Sample.failing w3) in
  consecutiveFailures (state w3) = 3
  /\ autoLoadEnabled (state w3) = false
  /\ cycleBlocked Sample.alice7d false w3 = false
  /\ snd (manualLoadMore Sample.alice7d Sample.failing w3) <> []
  /\ consecutiveFailures (state w4) = 4
  /\ consecutiveFailures (state w4) <> 0.
Proof. cbv zeta. repeat split; vm_compute; (reflexivity || discriminate). Qed.


Lemma cache_grows_by_batch_witness :
  let w := onTimeRangeChange Sample.alice30d
             (fst (loadMoreZaps Sample.alice7d (Sample.always [Sample.a]) true
                     Sample.emptyWorld)) in
  lengthZ (allReceiptsCache
             (state (fst (loadMoreZaps Sample.alice30d
                            (Sample.always [Sample.b; Sample.c]) true w)))) = 3.
Proof.
  cbv zeta.
  destruct (cache_grows_by_batch Sample.alice30d (Sample.always [Sample.b; Sample.c]) true
              (onTimeRangeChange Sample.alice30d
                 (fst (loadMoreZaps Sample.alice7d (Sample.always [Sample.a]) true
                         Sample.emptyWorld)))
              [Sample.b; Sample.c]) as [Hlen _].
  - vm_compute. reflexivity.
  - vm_compute. reflexivity.
  - rewrite Hlen. vm_compute. reflexivity.
Defined.

Lemma short_batch_completion_witness :
  isComplete
    (state (fst (loadMoreZaps Sample.alice30d (Sample.always [Sample.a; Sample.b]) false
                   Sample.emptyWorld))) = true.
Proof.
  apply (short_batch_completion Sample.alice30d (Sample.always [Sample.a; Sample.b]) false
           Sample.emptyWorld [Sample.a; Sample.b] eq_refl eq_refl).
  - vm_compute. discriminate.
  - vm_compute. reflexivity.
  - left. vm_compute. reflexivity.
Defined.

(** Three hundred receipts, one per second, answer a request for a thousand
    on the 30-day window: the batch is short, the limit 300 is detected, and
    the window is not complete. *)
Example short_batch_of_300_is_incomplete :
  let batch := map (fun i => Sample.receipt (pretty i) (Sample.now - Z.of_nat i)) (seq 1 300) in
  let st' := state (fst (loadMoreZaps Sample.alice30d (Sample.always batch) false
                           Sample.emptyWorld)) in
  requestedBatchSize false initialState = 1000
  /\ lengthZ (validate batch) = 300
  /\ relayLimit st' = Some 300
  /\ isComplete st' = false.
Proof. cbv zeta. repeat split; vm_compute; reflexivity. Qed.

(** The cache of [alice] holds [d]; the subject changes to her again (or the
    page is mounted anew); the next cycle receives [a]: the entry is [a]
    alone. *)
Lemma subject_change_restarts_pagination_witness :
  let w := fst (loadMoreZaps Sample.alice30d (Sample.always [Sample.d]) true
                  Sample.emptyWorld) in
  let w' := fst (loadMoreZaps Sample.alice30d (Sample.always [Sample.a]) true
                   (onUserChange Sample.alice30d w)) in
  userZapCache w !! "alice" = Some [Sample.d]
  /\ Nostr.until (cycleFilter Sample.alice30d true (state (onUserChange Sample.alice30d w)))
     = Some Sample.now
  /\ userZapCache w' !! "alice" = Some [Sample.a].
Proof.
  cbv zeta. split; [vm_compute; reflexivity|].
  destruct (subject_change_restarts_pagination Sample.alice30d (Sample.always [Sample.a])
              true
              (fst (loadMoreZaps Sample.alice30d (Sample.always [Sample.d]) true
                      Sample.emptyWorld))
              [Sample.a])
    as (_ & _ & Huntil & stored & Hstored & _ & Hperm).
  - vm_compute. reflexivity.
  - vm_compute. reflexivity.
  - split; [rewrite Huntil; reflexivity|].
    apply Permutation_sym, Permutation_length_1_inv in Hperm. subst stored.
    exact Hstored.
Defined.

End LoaderFacts.

(** ** The delivery worker *)

Module WorkerFacts.
Import JS PublishScheduledPosts.

Section Delivery.
Context `{R : Runtime}.

(** The event a post carries, when [signed_event] is present and decodes. *)
Definition decodedEvent (post : ScheduledPost) : option Nostr.NostrEvent :=
  match signed_event post with
  | SignedNull => None
  | SignedText json =>
      if String.eqb json "" then None
      else match parseSignedEvent json with
           | Normal event => Some event
           | Throws _ => None
           end
  | SignedObject event => Some event
  end.


Definition accepts (event : Nostr.NostrEvent) (relayURL : string) : bool :=
  isFulfilled (relayAnswer relayURL event).

Definition sockets (event : Nostr.NostrEvent) (relayUrls : list string) : list Effect :=
  map (fun relayURL => OpenSocket (toWsUrl relayURL) event) relayUrls.

Definition acceptedCount (event : Nostr.NostrEvent) (relayUrls : list string) : Z :=
  Z.of_nat (length (List.filter (accepts event) relayUrls)).

Lemma sendToRelays_from event relayUrls : forall trace successCount lastError,
  fold_left
    (fun acc relayURL =>
       let '(trace, successCount, lastError) := acc in
       let trace' := (trace ++ [OpenSocket (toWsUrl relayURL) event])%list in
       match relayAnswer relayURL event with
       | Fulfilled _ => (trace', successCount + 1, lastError)
       | Rejected err => (trace', successCount, Some err)
       end)
    relayUrls (trace, successCount, lastError)
  = ((trace ++ sockets event relayUrls)%list,
     successCount + acceptedCount event relayUrls,
     fold_left
       (fun last relayURL =>
          match relayAnswer relayURL event with
          | Fulfilled _ => last
          | Rejected err => Some err
          end) relayUrls lastError).
Proof.
  unfold acceptedCount, accepts.
  induction relayUrls as [|u urls IH]; intros trace successCount lastError; simpl.
  - now rewrite app_nil_r, Z.add_0_r.
  - destruct (relayAnswer u event) as [[]|err]; simpl; rewrite IH, <- app_assoc;
      simpl; f_equal; f_equal; lia.
Qed.





Lemma applyUpdate_marks postId data table row :
  In row (applyUpdate postId data table) -> id row = postId ->
  status row = u_status data /\ error_message row = u_error_message data.
Proof.
  unfold applyUpdate. intros Hin Hid. apply in_map_iff in Hin as (row0 & Hrow & _).
  destruct (String.eqb_spec (id row0) postId) as [Heq|Hne].
  - subst row. now split.
  - subst row0. contradiction.
Qed.

Lemma processPost_decoded post event :
  decodedEvent post = Some event -> processPost post = publishEvent post event.
Proof.
  unfold decodedEvent, processPost. destruct (signed_event post) as [|json|e].
  - discriminate.
  - destruct (String.eqb json ""); [discriminate|].
    destruct (parseSignedEvent json); [|discriminate]. now intros [= ->].
  - now intros [= ->].
Qed.




(** C10. When [signed_event] is [null], or is text that [JSON.parse] refuses,
    the worker writes the row once, as [failed] with a message that names the
    cause, reports the failure, and opens no socket. *)
Theorem undecodable_event_fails_unsent (post : ScheduledPost) :
  signed_event post = SignedNull
  \/ (exists json err,
        signed_event post = SignedText json /\ parseSignedEvent json = Throws err) ->
  exists msg,
    fst (processPost post)
    = [DbUpdate (id post)
         {| u_status := failed; u_published_at := None; u_error_message := Some msg |}]
    /\ socketsOpened (fst (processPost post)) = []
    /\ (msg = "Signed event is null"
        \/ exists err, msg = "Failed to parse signed event: " +:+ messageText err)
    /\ snd (processPost post)
       = {| success := false; postId := id post; error := Some msg;
            publishedToRelays := None; totalRelays := None; partialError := None |}
    /\ (forall table row,
          In row (applyEffects (fst (processPost post)) table) ->
          id row = id post ->
          status row = failed /\ error_message row = Some msg).
Proof.
  intros Hbad.
  assert (Hrun : exists msg,
             processPost post = failWith post msg
             /\ (msg = "Signed event is null"
                 \/ exists err, msg = "Failed to parse signed event: " +:+ messageText err)).
  { unfold processPost. destruct Hbad as [->|(json & err & -> & Hparse)].
    - eexists. split; [reflexivity|now left].
    - destruct (String.eqb json "").
      + eexists. split; [reflexivity|now left].
      + rewrite Hparse. eexists. split; [reflexivity|right; now exists err]. }
  destruct Hrun as (msg & -> & Hmsg). exists msg.
  unfold failWith, updatePostStatus. cbn [fst snd].
  split; [reflexivity|]. split; [reflexivity|]. split; [exact Hmsg|].
  split; [reflexivity|].
  intros table row Hin Hid.
  apply (applyUpdate_marks (id post)
           {| u_status := failed; u_published_at := None; u_error_message := Some msg |}
           table row); assumption.
Qed.

End Delivery.

(** *** On sample data *)

(** A runtime in which [wss://good] accepts every event, every other relay
    rejects it, and only the text ["{...}"] decodes. *)
Definition sampleEvent : Nostr.NostrEvent :=
  {| Nostr.id := "e1"; Nostr.pubkey := "alice"; Nostr.created_at := 1700000000;
     Nostr.kind := 1; Nostr.tags := []; Nostr.content := "hello"; Nostr.sig := "sig" |}.

#[local] Instance sampleRuntime : Runtime :=
  {| parseSignedEvent := fun json =>
       if String.eqb json "{...}" then Normal sampleEvent
       else Throws (Error "Unexpected token");
     parseRelays := fun json => Throws (Error "Unexpected token");
     relayAnswer := fun relayURL _ =>
       if String.eqb relayURL "wss://good" then Fulfilled tt
       else Rejected (Error "Relay rejected event: blocked");
     nowISO := "2026-01-01T00:00:00.000Z" |}.

Definition samplePost (ev : SignedEventField) (urls : list string) : ScheduledPost :=
  {| id := "post-1"; user_pubkey := "alice"; signed_event := ev; kind := 1;
     scheduled_for := "2025-12-31T23:00:00.000Z"; status := pending;
     relays := RelaysArray urls; created_at := "2025-12-30T00:00:00.000Z";
     published_at := None; error_message := None; retry_count := 0 |}.

(** One relay of two accepts: the row is published, with a note about the
    other one. *)
Example partial_publication_trace :
  let post := samplePost (SignedText "{...}") ["https://bad"; "wss://good"] in
  fst (processPost post)
  = [OpenSocket "wss://bad" sampleEvent; OpenSocket "wss://good" sampleEvent;
     DbUpdate "post-1"
       {| u_status := published;
          u_published_at := Some "2026-01-01T00:00:00.000Z";
          u_error_message :=
            Some "Partially published (1/2 relays). Last error: Relay rejected event: blocked" |}]
  /\ map status (applyEffects (fst (processPost post)) [post]) = [published].
Proof. cbv zeta. split; vm_compute; reflexivity. Qed.


(** Text that does not decode: one [failed] write, no socket. *)
Lemma undecodable_event_fails_unsent_witness :
  let post := samplePost (SignedText "not json") ["wss://good"] in
  socketsOpened (fst (processPost post)) = []
  /\ map status (applyEffects (fst (processPost post)) [post]) = [failed].
Proof.
  cbv zeta.
  destruct (undecodable_event_fails_unsent (samplePost (SignedText "not json") ["wss://good"]))
    as (msg & Htrace & Hsockets & _ & _ & _).
  - right. exists "not json", (Error "Unexpected token"). split; reflexivity.
  - split; [exact Hsockets|]. rewrite Htrace. reflexivity.
Defined.

End WorkerFacts.

(** ** The analytics hook *)

Module AnalyticsFacts.
Import JS Zaplytics.

(** No subject: neither the target nor the logged-in user gives a pubkey. *)
Definition noSubject (targetPubkey currentUserPubkey : option string) : Prop :=
  truthy_str targetPubkey = false /\ truthy_str currentUserPubkey = false.

(** A custom window that lacks its [from] or its [to]. *)
Definition incompleteCustom (timeRange : TimeRange)
    (customRange : option CustomDateRange) : Prop :=
  isCustom timeRange = true
  /\ (customRange = None
      \/ exists r, customRange = Some r /\ (from r = None \/ to r = None)).

Lemma incompleteCustom_dates timeRange customRange :
  incompleteCustom timeRange customRange ->
  hasFrom customRange && hasTo customRange = false.
Proof.
  intros [_ Hr]. destruct Hr as [->|(r & -> & [Hf|Ht])]; [reflexivity| |]; simpl.
  - rewrite Hf. reflexivity.
  - rewrite Ht. now rewrite andb_false_r.
Qed.

Lemma incompleteCustom_not_queried timeRange customRange :
  incompleteCustom timeRange customRange -> shouldQueryData timeRange customRange = false.
Proof.
  intros Hbad. unfold shouldQueryData. rewrite (incompleteCustom_dates _ _ Hbad).
  destruct Hbad as [-> _]. reflexivity.
Qed.

Section Hook.
Context `{U : Utils} `{G : Aggregators}.

Lemma no_subject_blocks timeRange customRange targetPubkey currentUserPubkey :
  noSubject targetPubkey currentUserPubkey ->
  truthy_str (pubkey (loaderProps timeRange customRange targetPubkey currentUserPubkey))
  = false.
Proof.
  intros [Ht Hc]. unfold loaderProps. cbn [pubkey]. now rewrite Ht.
Qed.

(** C8, as the code has it.  Without a subject no cycle of the loader sends a
    query, the auto-start effect arms nothing, the loader state is the reset
    one, the two auxiliary queries are disabled, and the analytics computed
    from it are zero: no earnings, no zaps, no zappers.  With a custom window
    that lacks a date the analytics are the fixed empty result, and the
    loader is run on the 7-day window with no custom range instead of the
    custom one. *)
Theorem configuration_errors_short_circuit
    (timeRange : TimeRange) (customRange : option CustomDateRange)
    (targetPubkey currentUserPubkey : option string) :
  let p := loaderProps timeRange customRange targetPubkey currentUserPubkey in
  (noSubject targetPubkey currentUserPubkey ->
     (forall attempt isAutomatic w, loadMoreZaps p attempt isAutomatic w = (w, []))
     /\ (forall now w, shouldStartLoading p now w = false)
     /\ (forall w, state (onUserChange p w) = initialState)
     /\ zappedContentEnabled (receipts initialState) = false
     /\ zapperProfilesEnabled (receipts initialState) [] = false
     /\ let data := analyticsQueryFn timeRange customRange initialState [] [] false false in
        totalEarnings data = 0 /\ totalZaps data = 0 /\ uniqueZappers data = 0
        /\ allZaps data = [])
  /\ (incompleteCustom timeRange customRange ->
        (forall progressiveData contentMap profileMap contentLoading profilesLoading,
           analyticsQueryFn timeRange customRange progressiveData contentMap profileMap
             contentLoading profilesLoading
           = emptyAnalytics timeRange progressiveData)
        /\ Zaplytics.timeRange p = "7d"
        /\ Zaplytics.customRange p = None).
Proof.
  intros p. split.
  - intros Hnone.
    pose proof (no_subject_blocks timeRange customRange _ _ Hnone) as Hpk. fold p in Hpk.
    split; [|split; [|split; [|split; [|split]]]].
    + intros attempt isAutomatic w. apply LoaderFacts.loadMoreZaps_blocked.
      unfold cycleBlocked. now rewrite Hpk.
    + intros now w. unfold shouldStartLoading. now rewrite Hpk.
    + reflexivity.
    + reflexivity.
    + reflexivity.
    + unfold analyticsQueryFn.
      destruct (isCustom timeRange && (negb (hasFrom customRange) || negb (hasTo customRange)));
        repeat split.
  - intros Hbad. pose proof (incompleteCustom_not_queried _ _ Hbad) as Hq.
    pose proof (incompleteCustom_dates _ _ Hbad) as Hd.
    destruct Hbad as [Hc _].
    split; [|split].
    + intros. unfold analyticsQueryFn. rewrite Hc, <- negb_andb, Hd. reflexivity.
    + unfold p, loaderProps. cbn [Zaplytics.timeRange]. now rewrite Hq.
    + unfold p, loaderProps. cbn [Zaplytics.customRange]. now rewrite Hq.
Qed.

End Hook.

#[local] Existing Instance Sample.utils.

(** A custom window without its [to] date, for the subject [alice]: the
    loader is handed the 7-day window, the auto-start effect arms a cycle, and
    the cycle sends a query. *)
Lemma incomplete_custom_window_still_queries :
  let customRange := Some {| from := Some 1700000000000; to := None |} in
  let p := loaderProps "custom" customRange (Some "alice") None in
  incompleteCustom "custom" customRange
  /\ p = Sample.alice7d
  /\ shouldStartLoading p Sample.now Sample.emptyWorld = true
  /\ snd (loadMoreZaps p (Sample.honest [Sample.a]) true Sample.emptyWorld)
     = [ {| Nostr.kinds := [9735]; Nostr.p_tag := ["alice"]; Nostr.limit := 1000;
            Nostr.since := Some (Sample.now - 7 * Sample.day);
            Nostr.until := Some Sample.now |} ]
  /\ snd (loadMoreZaps p (Sample.honest [Sample.a]) true Sample.emptyWorld) <> [].
Proof.
  cbv zeta. split.
  - split; [reflexivity|]. right. eexists. split; [reflexivity|now right].
  - repeat split; vm_compute; (reflexivity || discriminate).
Qed.

End AnalyticsFacts.

(** ** Chunked loops *)

Module ChunksFacts.
Import Chunks.

Section Lists.
Context {A : Type}.
Implicit Types (xs : list A) (size fuel i : nat).

Lemma slice_from i size xs : slice i (i + size) xs = take size (drop i xs).
Proof. unfold slice. f_equal. lia. Qed.

Lemma chunksFrom_concat fuel : forall size i xs,
  (0 < size)%nat -> (length xs <= i + fuel)%nat ->
  concat (chunksFrom fuel size i xs) = drop i xs.
Proof.
  induction fuel as [|fuel IH]; intros size i xs Hsize Hfuel; simpl.
  - symmetry. apply drop_ge. lia.
  - destruct (Nat.ltb_spec i (length xs)) as [Hlt|Hge]; simpl.
    + rewrite slice_from, IH by lia.
      rewrite <- (drop_drop xs size i). apply take_drop.
    + symmetry. apply drop_ge. lia.
Qed.

Lemma chunksFrom_sizes fuel : forall size i xs,
  (0 < size)%nat ->
  Forall (fun c => (0 < length c <= size)%nat) (chunksFrom fuel size i xs).
Proof.
  induction fuel as [|fuel IH]; intros size i xs Hsize; simpl; [constructor|].
  destruct (Nat.ltb_spec i (length xs)) as [Hlt|Hge]; [|constructor].
  constructor; [|now apply IH].
  rewrite slice_from, length_take, length_drop. lia.
Qed.

Lemma chunksFrom_count fuel : forall size i xs,
  (0 < size)%nat -> (length xs <= i + fuel)%nat ->
  length (chunksFrom fuel size i xs) = ((length xs - i + size - 1) / size)%nat.
Proof.
  induction fuel as [|fuel IH]; intros size i xs Hsize Hfuel; simpl.
  - replace (length xs - i + size - 1)%nat with (size - 1)%nat by lia.
    symmetry. apply Nat.div_small. lia.
  - destruct (Nat.ltb_spec i (length xs)) as [Hlt|Hge]; simpl.
    + rewrite IH by lia.
      destruct (Nat.le_gt_cases size (length xs - i)) as [Hfull|Hlast].
      * replace (length xs - i + size - 1)%nat
          with ((length xs - (i + size) + size - 1) + 1 * size)%nat by lia.
        rewrite Nat.div_add by lia. lia.
      * replace (length xs - (i + size) + size - 1)%nat with (size - 1)%nat by lia.
        rewrite (Nat.div_small (size - 1)) by lia.
        replace (length xs - i + size - 1)%nat
          with ((length xs - i - 1) + 1 * size)%nat by lia.
        rewrite Nat.div_add by lia. rewrite Nat.div_small by lia. reflexivity.
    + replace (length xs - i + size - 1)%nat with (size - 1)%nat by lia.
      symmetry. apply Nat.div_small. lia.
Qed.

(** The chunks of a list, for a positive chunk size: glued together they give
    the list back, none is empty, none is longer than the size, and there are
    as many as the length divided by the size, rounded up. *)
Theorem chunks_partition size xs :
  (0 < size)%nat ->
  concat (chunks size xs) = xs
  /\ Forall (fun c => (0 < length c <= size)%nat) (chunks size xs)
  /\ length (chunks size xs) = ((length xs + size - 1) / size)%nat.
Proof.
  intros Hsize. unfold chunks. split; [|split].
  - rewrite chunksFrom_concat by lia. reflexivity.
  - now apply chunksFrom_sizes.
  - rewrite chunksFrom_count by lia. f_equal. lia.
Qed.

End Lists.

Lemma chunks_partition_witness :
  chunks 3 [1; 2; 3; 4; 5; 6; 7]%nat = [[1; 2; 3]; [4; 5; 6]; [7]]%nat
  /\ concat (chunks 3 [1; 2; 3; 4; 5; 6; 7]%nat) = [1; 2; 3; 4; 5; 6; 7]%nat
  /\ length (chunks 3 [1; 2; 3; 4; 5; 6; 7]%nat) = 3%nat.
Proof.
  split; [reflexivity|].
  destruct (chunks_partition 3 [1; 2; 3; 4; 5; 6; 7]%nat) as (Hcat & _ & Hlen); [lia|].
  split; [exact Hcat|]. rewrite Hlen. reflexivity.
Defined.

End ChunksFacts.

(** ** One send to one relay *)

Module RelaySocketFacts.
Import JS RelaySocket.

(** What an event decides about the send, if anything. *)
Definition verdict (relayURL : string) (ev : SocketEvent) : option (Settled unit) :=
  match ev with
  | Message (OkMessage _ true _) => Some (Fulfilled tt)
  | Message (OkMessage _ false errorMessage) =>
      Some (Rejected (Error ("Relay rejected event: " +:+ errorMessage)))
  | Errored => Some (Rejected (Error ("WebSocket error for relay " +:+ relayURL)))
  | Closed code reason =>
      Some (if code =? 1000 then Fulfilled tt
            else Rejected (Error ("WebSocket closed: " +:+ pretty code +:+ " " +:+ reason)))
  | TimedOut => Some (Rejected (Error ("Timeout connecting to relay " +:+ relayURL)))
  | Opened | Message Unparsable | Message OtherMessage => None
  end.

Definition isOpened (ev : SocketEvent) : bool :=
  match ev with Opened => true | _ => false end.

(** The flag, the promise and the timer move together. *)
Definition coherent (s : Socket) : Prop :=
  (resolved s = true <-> promise s <> None) /\ timerArmed s = negb (resolved s).

Section Send.
Variable relayURL : string.
Variable event : Nostr.NostrEvent.

Lemma handle_step s ev :
  coherent s ->
  coherent (handle relayURL event s ev)
  /\ promise (handle relayURL event s ev)
     = match promise s with
       | Some outcome => Some outcome
       | None => verdict relayURL ev
       end
  /\ sent (handle relayURL event s ev)
     = (sent s ++ if isOpened ev then [event] else [])%list.
Proof.
  intros [Hres Htimer]. unfold coherent in *.
  destruct s as [st res pr timer out]. simpl in *. subst timer.
  destruct res; simpl in *.
  - destruct pr as [outcome|]; [|exfalso; now apply Hres].
    destruct ev as [|[|eventId [|] errorMessage|]| |code reason|];
      simpl; rewrite ?app_nil_r; repeat split; auto; try discriminate.
  - destruct pr as [outcome|];
      [assert (false = true) by (apply Hres; discriminate); discriminate|].
    destruct ev as [|[|eventId [|] errorMessage|]| |code reason|];
      simpl; rewrite ?app_nil_r; try (repeat split; auto; discriminate).
    destruct (code =? 1000); simpl; repeat split; auto; discriminate.
Qed.

Lemma run_from events : forall s,
  coherent s ->
  let s' := fold_left (handle relayURL event) events s in
  coherent s'
  /\ promise s'
     = match promise s with
       | Some outcome => Some outcome
       | None => head (omap (verdict relayURL) events)
       end
  /\ sent s' = (sent s ++ repeat event (length (List.filter isOpened events)))%list.
Proof.
  induction events as [|ev events IH]; intros s Hs; simpl.
  - rewrite app_nil_r. split; [exact Hs|]. split; [now destruct (promise s)|reflexivity].
  - destruct (handle_step s ev Hs) as (Hco & Hpr & Hsent).
    destruct (IH _ Hco) as (Hco' & Hpr' & Hsent'). cbv zeta in *.
    split; [exact Hco'|]. split.
    + rewrite Hpr', Hpr. destruct (promise s) as [outcome|]; [reflexivity|].
      destruct (verdict relayURL ev); reflexivity.
    + rewrite Hsent', Hsent, <- app_assoc. f_equal. now destruct (isOpened ev).
Qed.

(** [publishToRelay] settles at most once, and by the first event that
    decides: an ["OK"] frame with a true flag or a close with code 1000
    fulfils it — whatever event id the frame names, and whether or not the
    socket ever opened — while an ["OK"] with a false flag, a socket error,
    any other close code and the timeout reject it.  Frames that are not an
    ["OK"] array or do not parse decide nothing, and nothing after the first
    decision changes it.  The timer is armed exactly while the promise is
    pending, and one [EVENT] is sent at every [open], settled or not.  A
    constructor that throws rejects the promise with what was thrown. *)
Theorem first_verdict_settles (events : list SocketEvent) :
  let s := publishToRelay relayURL event (Normal tt) events in
  promise s = head (omap (verdict relayURL) events)
  /\ (forall later,
        promise s <> None ->
        promise (publishToRelay relayURL event (Normal tt) (events ++ later)) = promise s)
  /\ (timerArmed s = true <-> promise s = None)
  /\ sent s = repeat event (length (List.filter isOpened events))
  /\ forall err events',
       promise (publishToRelay relayURL event (Throws err) events') = Some (Rejected err)
       /\ sent (publishToRelay relayURL event (Throws err) events') = [].
Proof.
  assert (Hstart : coherent connecting).
  { split; [|reflexivity]. simpl. split; [discriminate|intros H; now elim H]. }
  intros s. subst s. unfold publishToRelay.
  destruct (run_from events connecting Hstart) as ((Hres & Htimer) & Hpr & Hsent).
  cbv zeta in *. simpl in Hpr, Hsent.
  split; [exact Hpr|]. split; [|split; [|split; [exact Hsent|now split]]].
  - intros later Hsettled. rewrite fold_left_app.
    destruct (run_from later (fold_left (handle relayURL event) events connecting))
      as (_ & Hpr' & _); [now split|].
    cbv zeta in Hpr'. rewrite Hpr'.
    destruct (promise (fold_left (handle relayURL event) events connecting));
      [reflexivity|contradiction].
  - rewrite Htimer.
    destruct (resolved (fold_left (handle relayURL event) events connecting)); simpl.
    + split; [discriminate|]. intros Hnone. exfalso. now apply Hres.
    + split; [intros _|reflexivity].
      destruct (promise (fold_left (handle relayURL event) events connecting)) eqn:E;
        [|reflexivity].
      assert (false = true) by (apply Hres; discriminate). discriminate.
Qed.

End Send.

(** A relay that answers with a NOTICE and then closes normally is taken to
    have accepted the event; a later error changes nothing. *)
Example normal_close_counts_as_accepted :
  promise (publishToRelay "wss://r" Sample.a (Normal tt)
             [Opened; Message OtherMessage; Closed 1000 ""; Errored])
  = Some (Fulfilled tt).
Proof. reflexivity. Qed.

(** The timer fires while the socket is still connecting: the send is
    rejected, the socket is left to connect, and the event goes out when it
    opens. *)
Example event_sent_after_timeout :
  let s := publishToRelay "wss://r" Sample.a (Normal tt) [TimedOut; Opened] in
  promise s = Some (Rejected (Error "Timeout connecting to relay wss://r"))
  /\ sent s = [Sample.a]
  /\ readyState s = OPEN.
Proof. cbv zeta. repeat split; reflexivity. Qed.

End RelaySocketFacts.

(** ** The delivery worker as a whole *)

Module WorkerRunFacts.
Import JS PublishScheduledPosts WorkerRun.

Definition isSocket (e : Effect) : bool :=
  match e with OpenSocket _ _ => true | DbUpdate _ _ => false end.


Lemma substring_all (s : string) : String.substring 0 (String.length s) s = s.
Proof. induction s as [|c s IH]; simpl; [reflexivity|]. now rewrite IH. Qed.

Lemma prefix_append (p r : string) : String.prefix p (p +:+ r) = true.
Proof.
  induction p as [|c p IH]; simpl; [now destruct r|].
  destruct (Ascii.ascii_dec c c); [exact IH|contradiction].
Qed.

Lemma substring_append (p r : string) :
  String.substring (String.length p) (String.length (p +:+ r) - String.length p) (p +:+ r)
  = r.
Proof.
  induction p as [|c p IH]; simpl; [|exact IH].
  rewrite Nat.sub_0_r. apply substring_all.
Qed.

(** [toWsUrl] turns an [http://] address into the [ws://] one and an
    [https://] address into the [wss://] one, keeping everything after the
    scheme; any other address — [ws://], [wss://], upper-case schemes — is
    left alone, and applying it twice is the same as applying it once. *)
Theorem toWsUrl_schemes (rest relayURL : string) :
  toWsUrl ("http://" +:+ rest) = "ws://" +:+ rest
  /\ toWsUrl ("https://" +:+ rest) = "wss://" +:+ rest
  /\ toWsUrl ("ws://" +:+ rest) = "ws://" +:+ rest
  /\ toWsUrl ("wss://" +:+ rest) = "wss://" +:+ rest
  /\ toWsUrl ("HTTP://" +:+ rest) = "HTTP://" +:+ rest
  /\ toWsUrl (toWsUrl relayURL) = toWsUrl relayURL.
Proof.
  split; [|split; [|split; [|split; [|split]]]].
  - unfold toWsUrl. rewrite (prefix_append "http://" rest).
    f_equal. apply (substring_append "http://" rest).
  - unfold toWsUrl.
    replace (String.prefix "http://" ("https://" +:+ rest)) with false by reflexivity.
    rewrite (prefix_append "https://" rest).
    f_equal. apply (substring_append "https://" rest).
  - reflexivity.
  - reflexivity.
  - reflexivity.
  - assert (E : toWsUrl relayURL
                = if String.prefix "http://" relayURL
                  then "ws://" +:+ String.substring 7 (String.length relayURL - 7) relayURL
                  else if String.prefix "https://" relayURL
                  then "wss://" +:+ String.substring 8 (String.length relayURL - 8) relayURL
                  else relayURL) by reflexivity.
    destruct (String.prefix "http://" relayURL) eqn:H1; [rewrite E; reflexivity|].
    destruct (String.prefix "https://" relayURL) eqn:H2; rewrite E; [reflexivity|].
    unfold toWsUrl. now rewrite H1, H2.
Qed.

Lemma filter_split_length {A} (f : A -> bool) (l : list A) :
  (length (List.filter f l) + length (List.filter (fun x => negb (f x)) l)
   = length l)%nat.
Proof.
  induction l as [|x l IH]; simpl; [reflexivity|].
  destruct (f x); simpl; lia.
Qed.

Section Batches.
Variable process : ScheduledPost -> list Effect * Settled PostResult.

Lemma batches_from (batches : list (list ScheduledPost)) : forall acc,
  fold_left
    (fun acc batch =>
       let '(trace, results) := runBatch process batch in
       ((fst acc ++ trace)%list, (snd acc ++ results)%list))
    batches acc
  = ((fst acc ++ concat (map (fun post => fst (process post)) (concat batches)))%list,
     (snd acc ++ map (fun post => collect (snd (process post))) (concat batches))%list).
Proof.
  induction batches as [|batch batches IH]; intros [trace results]; simpl.
  - now rewrite !app_nil_r.
  - rewrite IH. simpl. rewrite !map_app, concat_app, !map_map, <- !app_assoc.
    reflexivity.
Qed.

Lemma processPostsInBatches_flat posts :
  processPostsInBatches process posts
  = (concat (map (fun post => fst (process post)) posts),
     map (fun post => collect (snd (process post))) posts).
Proof.
  unfold processPostsInBatches. rewrite batches_from. simpl.
  unfold Chunks.chunks.
  rewrite ChunksFacts.chunksFrom_concat; [reflexivity| |]; unfold MAX_WORKERS; simpl; lia.
Qed.

End Batches.

Section Worker.
Context `{R : Runtime}.

(** The trace of one post: sockets, then one write for the post. *)
Lemma processPost_trace post :
  exists prefix data,
    fst (processPost post) = (prefix ++ [DbUpdate (id post) data])%list
    /\ forallb isSocket prefix = true
    /\ postId (snd (processPost post)) = id post
    /\ ((u_status data = published /\ u_published_at data = Some nowISO
         /\ success (snd (processPost post)) = true
         /\ error (snd (processPost post)) = None)
        \/ (u_status data = failed /\ u_published_at data = None
            /\ success (snd (processPost post)) = false
            /\ exists msg, u_error_message data = Some msg
                 /\ error (snd (processPost post)) = Some msg)).
Proof.
  assert (Hfail : forall msg,
    exists prefix data,
      fst (failWith post msg) = (prefix ++ [DbUpdate (id post) data])%list
      /\ forallb isSocket prefix = true
      /\ postId (snd (failWith post msg)) = id post
      /\ ((u_status data = published /\ u_published_at data = Some nowISO
           /\ success (snd (failWith post msg)) = true
           /\ error (snd (failWith post msg)) = None)
          \/ (u_status data = failed /\ u_published_at data = None
              /\ success (snd (failWith post msg)) = false
              /\ exists m, u_error_message data = Some m
                   /\ error (snd (failWith post msg)) = Some m))).
  { intros msg. exists [], {| u_status := failed; u_published_at := None;
                              u_error_message := Some msg |}.
    repeat split. right. repeat split. now exists msg. }
  assert (Hpublish : forall event,
    exists prefix data,
      fst (publishEvent post event) = (prefix ++ [DbUpdate (id post) data])%list
      /\ forallb isSocket prefix = true
      /\ postId (snd (publishEvent post event)) = id post
      /\ ((u_status data = published /\ u_published_at data = Some nowISO
           /\ success (snd (publishEvent post event)) = true
           /\ error (snd (publishEvent post event)) = None)
          \/ (u_status data = failed /\ u_published_at data = None
              /\ success (snd (publishEvent post event)) = false
              /\ exists m, u_error_message data = Some m
                   /\ error (snd (publishEvent post event)) = Some m))).
  { intros event. unfold publishEvent.
    destruct (match relays post with
              | RelaysText json => parseRelays json
              | RelaysArray urls => Normal urls
              end) as [relayUrls|err].
    - unfold sendToRelays. rewrite WorkerFacts.sendToRelays_from, Z.add_0_l, app_nil_l.
      assert (Hsockets : forallb isSocket (WorkerFacts.sockets event relayUrls) = true).
      { unfold WorkerFacts.sockets. induction relayUrls; simpl; auto. }
      destruct (0 <? WorkerFacts.acceptedCount event relayUrls).
      + eexists _, _. split; [reflexivity|]. split; [exact Hsockets|].
        split; [reflexivity|]. left. now repeat split.
      + unfold failWith, updatePostStatus. eexists _, _.
        split; [reflexivity|]. split; [exact Hsockets|]. split; [reflexivity|].
        right. repeat split. eauto.
    - destruct (Hfail ("Processing error: " +:+ messageText err))
        as (prefix & data & H). exists prefix, data.
      destruct (failWith post ("Processing error: " +:+ messageText err)). exact H. }
  unfold processPost. destruct (signed_event post) as [|json|event].
  - apply Hfail.
  - destruct (String.eqb json ""); [apply Hfail|].
    destruct (parseSignedEvent json); [apply Hpublish|apply Hfail].
  - apply Hpublish.
Qed.

Lemma applyEffects_after_sockets prefix : forall table,
  forallb isSocket prefix = true -> applyEffects prefix table = table.
Proof.
  unfold applyEffects. induction prefix as [|e prefix IH]; intros table Hs; simpl;
    [reflexivity|].
  simpl in Hs. apply andb_true_iff in Hs as [He Hs].
  destruct e; [|discriminate]. simpl. now apply IH.
Qed.

Lemma applyEffects_trace prefix postId data table :
  forallb isSocket prefix = true ->
  applyEffects (prefix ++ [DbUpdate postId data]) table = applyUpdate postId data table.
Proof.
  intros Hs. unfold applyEffects. rewrite fold_left_app. simpl.
  fold (applyEffects prefix table). now rewrite applyEffects_after_sockets.
Qed.


(** Processing a post changes nothing in the table but [status],
    [error_message] and [published_at] of the rows with the post's id: the
    table keeps its length and order, every row keeps its id, event, relays,
    schedule and [retry_count], and rows of other posts are left exactly as
    they were. *)
Theorem worker_touches_only_its_row (post : ScheduledPost) (table : list ScheduledPost) :
  let table' := applyEffects (fst (processPost post)) table in
  length table' = length table
  /\ forall i row,
       nth_error table i = Some row ->
       exists row',
         nth_error table' i = Some row'
         /\ id row' = id row
         /\ user_pubkey row' = user_pubkey row
         /\ signed_event row' = signed_event row
         /\ kind row' = kind row
         /\ scheduled_for row' = scheduled_for row
         /\ relays row' = relays row
         /\ created_at row' = created_at row
         /\ retry_count row' = retry_count row
         /\ (id row <> id post -> row' = row).
Proof.
  intros table'. subst table'.
  destruct (processPost_trace post) as (prefix & data & Htrace & Hsockets & _).
  rewrite Htrace, applyEffects_trace by exact Hsockets. unfold applyUpdate.
  split; [apply length_map|].
  intros i row Hrow. rewrite nth_error_map, Hrow. simpl.
  eexists. split; [reflexivity|].
  destruct (String.eqb_spec (id row) (id post)) as [Heq|Hne]; simpl.
  - repeat split; try reflexivity. intros Hne. contradiction.
  - repeat split; reflexivity.
Qed.

(** A post whose event decodes but whose relay list is text that
    [JSON.parse] refuses is marked [failed] with "Processing error: ..." and
    no socket is opened for it. *)
Theorem unparsable_relay_list_fails_unsent
    (post : ScheduledPost) (event : Nostr.NostrEvent) (json : string) (err : Thrown) :
  WorkerFacts.decodedEvent post = Some event ->
  relays post = RelaysText json ->
  parseRelays json = Throws err ->
  processPost post = failWith post ("Processing error: " +:+ messageText err)
  /\ socketsOpened (fst (processPost post)) = []
  /\ fst (processPost post)
     = [DbUpdate (id post)
          {| u_status := failed; u_published_at := None;
             u_error_message := Some ("Processing error: " +:+ messageText err) |}].
Proof.
  intros Hevent Hrelays Hparse.
  rewrite (WorkerFacts.processPost_decoded _ _ Hevent).
  unfold publishEvent. rewrite Hrelays, Hparse.
  unfold failWith, updatePostStatus. repeat split.
Qed.

Lemma processPostSettled_fst post :
  fst (processPostSettled post) = fst (processPost post).
Proof. unfold processPostSettled. now destruct (processPost post). Qed.

Lemma processPostSettled_snd post :
  collect (snd (processPostSettled post)) = Processed (snd (processPost post)).
Proof. unfold processPostSettled. now destruct (processPost post). Qed.

(** The handler answers a preflight with 204 and touches nothing.  When the
    select fails or throws it answers 500 and touches nothing; when nothing
    is due it answers 200 and touches nothing.  Otherwise it processes every
    selected post, in the order selected: there is one result per post, the
    successes and failures it counts add up to the total, and what it does to
    the outside is what processing each of the posts does. *)
Theorem handler_accounts_for_every_post (method : string) (pending : SelectOutcome) :
  (method = "OPTIONS" ->
     handler method pending = ([], {| statusCode := 204; body := NoBody |}))
  /\ (method <> "OPTIONS" ->
      match pending with
      | SelectThrows err =>
          fst (handler method pending) = []
          /\ statusCode (snd (handler method pending)) = 500
      | SelectError details =>
          handler method pending
          = ([], {| statusCode := 500; body := FetchFailed details |})
      | SelectData None | SelectData (Some []) =>
          handler method pending
          = ([], {| statusCode := 200; body := NothingPending |})
      | SelectData (Some posts) =>
          exists successful failed,
            snd (handler method pending)
            = {| statusCode := 200;
                 body := ProcessingComplete (Z.of_nat (length posts)) successful failed
                           (map (fun post => Processed (snd (processPost post))) posts) |}
            /\ successful + failed = Z.of_nat (length posts)
            /\ successful
               = Z.of_nat (length (List.filter
                                     (fun post => success (snd (processPost post))) posts))
            /\ fst (handler method pending)
               = concat (map (fun post => fst (processPost post)) posts)
      end).
Proof.
  split.
  - intros ->. reflexivity.
  - intros Hmethod. unfold handler.
    destruct (String.eqb_spec method "OPTIONS") as [Heq|_]; [contradiction|].
    destruct pending as [[[|post posts]|]|details|err]; try reflexivity; [|now split].
    rewrite processPostsInBatches_flat.
    set (all := post :: posts).
    rewrite (map_ext _ _ processPostSettled_snd), (map_ext _ _ processPostSettled_fst).
    cbn [fst snd].
    eexists _, _. split; [reflexivity|]. split; [|split; [|reflexivity]].
    + rewrite <- Nat2Z.inj_add, filter_split_length. now rewrite length_map.
    + f_equal. clear. induction all as [|p all IH]; simpl; [reflexivity|].
      destruct (success (snd (processPost p))); simpl; now rewrite IH.
Qed.

End Worker.

Lemma unparsable_relay_list_fails_unsent_witness :
  let post :=
    {| id := "post-2"; user_pubkey := "alice";
       signed_event := SignedObject WorkerFacts.sampleEvent; kind := 1;
       scheduled_for := "2025-12-31T23:00:00.000Z"; status := pending;
       relays := RelaysText "[wss://good"; created_at := "2025-12-30T00:00:00.000Z";
       published_at := None; error_message := None; retry_count := 0 |} in
  fst (processPost (R := WorkerFacts.sampleRuntime) post)
  = [DbUpdate "post-2"
       {| u_status := failed; u_published_at := None;
          u_error_message := Some "Processing error: Unexpected token" |}].
Proof.
  cbv zeta.
  destruct (unparsable_relay_list_fails_unsent (R := WorkerFacts.sampleRuntime)
              {| id := "post-2"; user_pubkey := "alice";
                 signed_event := SignedObject WorkerFacts.sampleEvent; kind := 1;
                 scheduled_for := "2025-12-31T23:00:00.000Z"; status := pending;
                 relays := RelaysText "[wss://good";
                 created_at := "2025-12-30T00:00:00.000Z";
                 published_at := None; error_message := None; retry_count := 0 |}
              WorkerFacts.sampleEvent "[wss://good" (Error "Unexpected token")
              eq_refl eq_refl eq_refl) as (_ & _ & Htrace).
  exact Htrace.
Defined.

(** Seven due posts, the third with an event that does not decode: seven
    results, six successes and one failure. *)
Example handler_seven_posts :
  let good := WorkerFacts.samplePost (SignedText "{...}") ["wss://good"] in
  let bad := WorkerFacts.samplePost (SignedText "oops") ["wss://good"] in
  snd (handler (R := WorkerFacts.sampleRuntime) "POST"
         (SelectData (Some [good; good; bad; good; good; good; good])))
  = {| statusCode := 200;
       body := ProcessingComplete 7 6 1
                 (map (fun post => Processed
                                     (snd (processPost (R := WorkerFacts.sampleRuntime) post)))
                    [good; good; bad; good; good; good; good]) |}.
Proof. vm_compute. reflexivity. Qed.

End WorkerRunFacts.

(** ** The lookup hooks and the module caches *)

Module ZapLookupsFacts.
Import JS Zaplytics ZapLookups.

(** The last element of [l] whose key is [k]. *)
Definition lastBy {A} (key : A -> string) (k : string) (l : list A) : option A :=
  List.find (fun e => String.eqb (key e) k) (rev l).

Definition cachedIn {V} (cache : gmap string V) (k : string) : bool :=
  bool_decide (is_Some (cache !! k)).

Section Generic.
Context {A V : Type}.

Lemma lastBy_snoc (key : A -> string) k l x :
  lastBy key k (l ++ [x]) = if String.eqb (key x) k then Some x else lastBy key k l.
Proof. unfold lastBy. rewrite rev_unit. reflexivity. Qed.

Lemma lastBy_In (key : A -> string) k l e :
  lastBy key k l = Some e -> In e l /\ key e = k.
Proof.
  unfold lastBy. intros H. apply find_some in H as [Hin Hk].
  split; [now apply in_rev|now apply String.eqb_eq].
Qed.

Lemma lastBy_found (key : A -> string) l e :
  In e l -> exists e', lastBy key (key e) l = Some e'.
Proof.
  intros Hin. unfold lastBy.
  destruct (List.find (fun x => String.eqb (key x) (key e)) (rev l)) as [e'|] eqn:E;
    [now exists e'|].
  apply in_rev in Hin. pose proof (find_none _ _ E e Hin) as Hno. simpl in Hno.
  rewrite String.eqb_refl in Hno. discriminate.
Qed.

(** Storing keyed values one after the other: the last one wins. *)
Lemma store_lookup (key : A -> string) (val : A -> V) (l : list A) :
  forall (m : gmap string V) k,
    fold_left (fun m e => <[key e := val e]> m) l m !! k
    = match lastBy key k l with
      | Some e => Some (val e)
      | None => m !! k
      end.
Proof.
  induction l as [|x l IH] using rev_ind; intros m k; [reflexivity|].
  rewrite fold_left_app, lastBy_snoc. simpl.
  destruct (String.eqb_spec (key x) k) as [->|Hne].
  - apply lookup_insert_eq.
  - rewrite lookup_insert_ne by exact Hne. apply IH.
Qed.

(** Sorting requested keys into cached values and keys to fetch. *)
Lemma split_spec (cache : gmap string V) (ids : list string) :
  forall (m0 : gmap string V) (u0 : list string),
    let r := fold_left
               (fun acc k =>
                  match cache !! k with
                  | Some cached => (<[k := cached]> (fst acc), snd acc)
                  | None => (fst acc, (snd acc ++ [k])%list)
                  end) ids (m0, u0) in
    snd r = (u0 ++ List.filter (fun k => negb (cachedIn cache k)) ids)%list
    /\ forall k,
         (In k ids ->
          fst r !! k = match cache !! k with Some c => Some c | None => m0 !! k end)
         /\ (~ In k ids -> fst r !! k = m0 !! k).
Proof.
  induction ids as [|i ids IH]; intros m0 u0; simpl.
  - split; [now rewrite app_nil_r|]. intros k. split; [contradiction|reflexivity].
  - destruct (cache !! i) as [c|] eqn:Hi.
    + assert (Hc : cachedIn cache i = true).
      { unfold cachedIn. rewrite Hi. apply bool_decide_eq_true_2. eauto. }
      rewrite Hc. simpl.
      destruct (IH (<[i := c]> m0) u0) as [Hu Hm]. cbv zeta in *.
      split; [exact Hu|]. intros k. destruct (Hm k) as [Hin Hout].
      split.
      * intros Hk. destruct (in_dec string_dec k ids) as [Hids|Hids].
        -- rewrite (Hin Hids). destruct (cache !! k) eqn:Hck; [reflexivity|].
           apply lookup_insert_ne. intros ->. congruence.
        -- destruct Hk as [<-|Hk]; [|contradiction].
           rewrite (Hout Hids), Hi. apply lookup_insert_eq.
      * intros Hk. rewrite Hout by tauto. apply lookup_insert_ne. tauto.
    + assert (Hc : cachedIn cache i = false).
      { unfold cachedIn. rewrite Hi. apply bool_decide_eq_false_2.
        intros [? ?]; discriminate. }
      rewrite Hc. simpl.
      destruct (IH m0 (u0 ++ [i])%list) as [Hu Hm]. cbv zeta in *.
      split; [now rewrite Hu, <- app_assoc|]. intros k. destruct (Hm k) as [Hin Hout].
      split.
      * intros Hk. destruct (in_dec string_dec k ids) as [Hids|Hids]; [now apply Hin|].
        destruct Hk as [<-|Hk]; [|contradiction]. now rewrite (Hout Hids), Hi.
      * intros Hk. apply Hout. tauto.
Qed.

Lemma gather_flat (f : list string -> list A) (batches : list (list (list string))) :
  forall acc,
    fold_left (fun all batch => (all ++ concat (map f batch))%list) batches acc
    = (acc ++ flat_map f (concat batches))%list.
Proof.
  induction batches as [|b batches IH]; intros acc; simpl.
  - now rewrite app_nil_r.
  - rewrite IH, flat_map_app, <- app_assoc. f_equal. f_equal.
    now rewrite flat_map_concat_map.
Qed.

End Generic.

Lemma chunks_glue {A} (size : nat) (xs : list A) :
  (0 < size)%nat -> concat (Chunks.chunks size xs) = xs.
Proof.
  intros Hsize. unfold Chunks.chunks.
  rewrite ChunksFacts.chunksFrom_concat by lia. reflexivity.
Qed.

(** *** [useZappedContent] *)

Section Content.
Variable query : list string -> Settled (list Nostr.NostrEvent).

Definition uncachedOf {V} (cache : gmap string V) (ids : list string) : list string :=
  List.filter (fun k => negb (cachedIn cache k)) ids.

Lemma uncachedOf_nil {V} (cache : gmap string V) (ids : list string) :
  (forall k, In k ids -> is_Some (cache !! k)) -> uncachedOf cache ids = [].
Proof.
  unfold uncachedOf. induction ids as [|i ids IH]; intros Hall; [reflexivity|].
  assert (Hc : cachedIn cache i = true).
  { apply bool_decide_eq_true_2, Hall. now left. }
  cbn [List.filter]. rewrite Hc. cbn [negb]. apply IH.
  intros k Hk. apply Hall. now right.
Qed.

Lemma uncachedOf_all {V} (ids : list string) :
  uncachedOf (∅ : gmap string V) ids = ids.
Proof.
  unfold uncachedOf. induction ids as [|i ids IH]; [reflexivity|].
  cbn [List.filter]. rewrite IH. reflexivity.
Qed.

Lemma storeEvents_split (l : list Nostr.NostrEvent) :
  forall m c,
    storeEvents l (m, c)
    = (fold_left (fun m e => <[Nostr.id e := e]> m) l m,
       fold_left (fun m e => <[Nostr.id e := e]> m) l c).
Proof.
  unfold storeEvents. induction l as [|e l IH]; intros m c; simpl; [reflexivity|].
  apply IH.
Qed.

Lemma fetchChunks_flat chunkList :
  fetchChunks query chunkList = flat_map (processChunk query) chunkList.
Proof.
  unfold fetchChunks. rewrite gather_flat, chunks_glue by lia. reflexivity.
Qed.

Lemma zappedContent_shape eventIds cache :
  let asked := Chunks.chunks 150 (uncachedOf cache eventIds) in
  let fetched := flat_map (processChunk query) asked in
  zappedContentQueryFn query eventIds cache
  = (fold_left (fun m e => <[Nostr.id e := e]> m) fetched (fst (splitCached eventIds cache)),
     fold_left (fun m e => <[Nostr.id e := e]> m) fetched cache,
     asked).
Proof.
  cbv zeta. unfold zappedContentQueryFn.
  destruct eventIds as [|i ids]; [reflexivity|].
  assert (Hu : snd (splitCached (i :: ids) cache) = uncachedOf cache (i :: ids)).
  { destruct (split_spec cache (i :: ids) ∅ []) as [Hu _]. exact Hu. }
  destruct (splitCached (i :: ids) cache) as [eventMap uncached].
  cbn [fst snd] in *. rewrite <- Hu.
  destruct uncached as [|u uncached]; [reflexivity|].
  rewrite fetchChunks_flat, storeEvents_split. reflexivity.
Qed.

(** [useZappedContent] asks the relays for exactly the requested ids that have
    no entry in [contentEventCache], in the order requested and in lists of 1
    to 150 ids; an id with an entry is never asked for, and when every
    requested id has one — or none is requested — no query is sent and the
    cache is left as it is. *)
Theorem content_lookup_is_cache_first
    (eventIds : list string) (cache : gmap string Nostr.NostrEvent) :
  let result := zappedContentQueryFn query eventIds cache in
  let asked := snd result in
  concat asked = uncachedOf cache eventIds
  /\ Forall (fun chunk => (0 < length chunk <= 150)%nat) asked
  /\ (forall chunk k, In chunk asked -> In k chunk -> In k eventIds /\ cache !! k = None)
  /\ ((forall k, In k eventIds -> is_Some (cache !! k)) ->
      asked = [] /\ snd (fst result) = cache
      /\ forall k, In k eventIds -> fst (fst result) !! k = cache !! k).
Proof.
  intros result asked. subst result asked. rewrite zappedContent_shape. cbn [fst snd].
  assert (Hglue : concat (Chunks.chunks 150 (uncachedOf cache eventIds))
                  = uncachedOf cache eventIds) by (apply chunks_glue; lia).
  split; [exact Hglue|]. split; [apply ChunksFacts.chunksFrom_sizes; lia|]. split.
  - intros chunk k Hchunk Hk.
    assert (Hin : In k (uncachedOf cache eventIds)).
    { rewrite <- Hglue. apply in_concat. eauto. }
    apply filter_In in Hin as [Hin Hc]. split; [exact Hin|].
    unfold cachedIn in Hc. apply negb_true_iff, bool_decide_eq_false in Hc.
    destruct (cache !! k); [exfalso; eauto|reflexivity].
  - intros Hall.
    rewrite (uncachedOf_nil _ _ Hall). simpl. split; [reflexivity|]. split; [reflexivity|].
    intros k Hk. destruct (split_spec cache eventIds ∅ []) as [_ Hm]. cbv zeta in Hm.
    destruct (Hm k) as [Hin _]. unfold splitCached. rewrite (Hin Hk).
    destruct (Hall k Hk) as [c ->]. reflexivity.
Qed.

(** What [useZappedContent] leaves behind.  For every id, [contentEventCache]
    afterwards holds the last event the relays returned under that id, and
    otherwise what it held before: the cache only grows.  The returned map
    holds the same event, and otherwise the cached event of a requested id.
    In particular every event of a chunk that was answered is in both maps
    under its id, whether or not other chunks failed. *)
Theorem content_lookup_stores_what_it_fetched
    (eventIds : list string) (cache : gmap string Nostr.NostrEvent) :
  let result := zappedContentQueryFn query eventIds cache in
  let eventMap := fst (fst result) in
  let cache' := snd (fst result) in
  let fetched := flat_map (processChunk query) (snd result) in
  (forall k,
      cache' !! k = match lastBy Nostr.id k fetched with
                    | Some e => Some e
                    | None => cache !! k
                    end)
  /\ (forall k,
        eventMap !! k = match lastBy Nostr.id k fetched with
                        | Some e => Some e
                        | None => if in_dec string_dec k eventIds then cache !! k else None
                        end)
  /\ (forall k, is_Some (cache !! k) -> is_Some (cache' !! k))
  /\ (forall chunk events e,
        In chunk (snd result) -> query chunk = Fulfilled events -> In e events ->
        exists e', eventMap !! Nostr.id e = Some e' /\ cache' !! Nostr.id e = Some e'
                   /\ Nostr.id e' = Nostr.id e).
Proof.
  intros result eventMap cache' fetched. subst result eventMap cache' fetched.
  rewrite zappedContent_shape. cbn [fst snd].
  set (fetched := flat_map (processChunk query)
                    (Chunks.chunks 150 (uncachedOf cache eventIds))).
  assert (Hcache : forall k,
    fold_left (fun m e => <[Nostr.id e := e]> m) fetched cache !! k
    = match lastBy Nostr.id k fetched with Some e => Some e | None => cache !! k end).
  { intros k. apply (store_lookup Nostr.id (fun e => e)). }
  assert (Hmap : forall k,
    fold_left (fun m e => <[Nostr.id e := e]> m) fetched (fst (splitCached eventIds cache)) !! k
    = match lastBy Nostr.id k fetched with
      | Some e => Some e
      | None => if in_dec string_dec k eventIds then cache !! k else None
      end).
  { intros k. rewrite (store_lookup Nostr.id (fun e => e)).
    destruct (lastBy Nostr.id k fetched); [reflexivity|].
    destruct (split_spec cache eventIds ∅ []) as [_ Hm]. cbv zeta in Hm.
    destruct (Hm k) as [Hin Hout]. unfold splitCached.
    destruct (in_dec string_dec k eventIds) as [Hk|Hk].
    - rewrite (Hin Hk). now destruct (cache !! k).
    - now rewrite (Hout Hk). }
  split; [exact Hcache|]. split; [exact Hmap|]. split.
  - intros k [c Hc]. rewrite Hcache. destruct (lastBy Nostr.id k fetched); eauto.
  - intros chunk events e Hchunk Hquery He.
    assert (Hin : In e fetched).
    { unfold fetched. apply in_flat_map. exists chunk. split; [exact Hchunk|].
      unfold processChunk. now rewrite Hquery. }
    destruct (lastBy_found Nostr.id fetched e Hin) as (e' & Hlast).
    exists e'. rewrite Hmap, Hcache, Hlast.
    split; [reflexivity|]. split; [reflexivity|]. now apply lastBy_In in Hlast.
Qed.

End Content.

(** *** [useZapperProfiles] *)

Section Profiles.
Variable query : list string -> Settled (list Nostr.NostrEvent).
Variable parseMetadata : string -> Completion Profile.

(** The profiles whose content parses, with the key they are stored under. *)
Definition parsedProfiles (l : list Nostr.NostrEvent) : list (string * Profile) :=
  omap (fun profile =>
          match parseMetadata (Nostr.content profile) with
          | Normal metadata => Some (Nostr.pubkey profile, metadata)
          | Throws _ => None
          end) l.

Lemma storeProfiles_split (l : list Nostr.NostrEvent) :
  forall m c,
    storeProfiles parseMetadata l (m, c)
    = (fold_left (fun m pm => <[fst pm := snd pm]> m) (parsedProfiles l) m,
       fold_left (fun m pm => <[fst pm := snd pm]> m) (parsedProfiles l) c).
Proof.
  unfold storeProfiles, parsedProfiles.
  induction l as [|e l IH]; intros m c; [reflexivity|].
  cbn [fold_left omap list_omap]. destruct (parseMetadata (Nostr.content e)); cbn.
  - apply IH.
  - destruct (fold_left _ l (m, c)) eqn:E. rewrite <- E. apply IH.
Qed.

Lemma fetchProfileChunks_flat chunkList :
  fetchProfileChunks query chunkList = flat_map (processProfileChunk query) chunkList.
Proof.
  unfold fetchProfileChunks. rewrite gather_flat, chunks_glue by lia. reflexivity.
Qed.

Lemma zapperProfiles_shape uniquePubkeys cache :
  let asked := Chunks.chunks 100 (uncachedOf cache uniquePubkeys) in
  let stored := parsedProfiles (flat_map (processProfileChunk query) asked) in
  zapperProfilesQueryFn query parseMetadata uniquePubkeys cache
  = (fold_left (fun m pm => <[fst pm := snd pm]> m) stored
       (fst (splitCachedProfiles uniquePubkeys cache)),
     fold_left (fun m pm => <[fst pm := snd pm]> m) stored cache,
     asked).
Proof.
  cbv zeta. unfold zapperProfilesQueryFn.
  destruct uniquePubkeys as [|i ids]; [reflexivity|].
  assert (Hu : snd (splitCachedProfiles (i :: ids) cache) = uncachedOf cache (i :: ids)).
  { destruct (split_spec cache (i :: ids) ∅ []) as [Hu _]. exact Hu. }
  destruct (splitCachedProfiles (i :: ids) cache) as [profileMap uncached].
  cbn [fst snd] in *. rewrite <- Hu.
  destruct uncached as [|u uncached]; [reflexivity|].
  rewrite fetchProfileChunks_flat, storeProfiles_split. reflexivity.
Qed.

Lemma parsedProfiles_In l k m :
  In (k, m) (parsedProfiles l) <->
  exists e, In e l /\ Nostr.pubkey e = k /\ parseMetadata (Nostr.content e) = Normal m.
Proof.
  unfold parsedProfiles. induction l as [|e l IH]; cbn [omap list_omap].
  - split; [contradiction|]. now intros (e & [] & _).
  - destruct (parseMetadata (Nostr.content e)) as [m0|err] eqn:E.
    + split.
      * intros [H|H].
        -- injection H as <- <-. exists e. split; [now left|]. now split.
        -- apply IH in H as (e' & Hin & Hk & Hp). exists e'. split; [now right|]. now split.
      * intros (e' & [<-|Hin] & Hk & Hp).
        -- left. rewrite E in Hp. injection Hp as <-. now rewrite Hk.
        -- right. apply IH. eauto.
    + rewrite IH. split.
      * intros (e' & Hin & Hk & Hp). exists e'. split; [now right|]. now split.
      * intros (e' & [<-|Hin] & Hk & Hp); [congruence|eauto].
Qed.

(** [useZapperProfiles] asks the relays for exactly the pubkeys that have no
    entry in [profileCache], in lists of 1 to 100.  Of the events returned,
    the ones whose content parses are stored under their author's pubkey, in
    the returned map and in [profileCache], the last one for a pubkey winning;
    an event whose content does not parse is skipped and changes nothing, so a
    pubkey for which only such events came back keeps what the cache held.  A
    cached pubkey that was requested is in the returned map. *)
Theorem profile_lookup_skips_malformed
    (uniquePubkeys : list string) (cache : gmap string Profile) :
  let result := zapperProfilesQueryFn query parseMetadata uniquePubkeys cache in
  let profileMap := fst (fst result) in
  let cache' := snd (fst result) in
  let asked := snd result in
  let fetched := flat_map (processProfileChunk query) asked in
  concat asked = uncachedOf cache uniquePubkeys
  /\ Forall (fun chunk => (0 < length chunk <= 100)%nat) asked
  /\ (forall k,
        cache' !! k = match lastBy fst k (parsedProfiles fetched) with
                      | Some pm => Some (snd pm)
                      | None => cache !! k
                      end)
  /\ (forall k,
        profileMap !! k = match lastBy fst k (parsedProfiles fetched) with
                          | Some pm => Some (snd pm)
                          | None => if in_dec string_dec k uniquePubkeys
                                    then cache !! k else None
                          end)
  /\ (forall e metadata,
        In e fetched -> parseMetadata (Nostr.content e) = Normal metadata ->
        is_Some (profileMap !! Nostr.pubkey e) /\ is_Some (cache' !! Nostr.pubkey e))
  /\ (forall k,
        (forall e, In e fetched -> Nostr.pubkey e = k ->
                   exists err, parseMetadata (Nostr.content e) = Throws err) ->
        cache' !! k = cache !! k).
Proof.
  intros result profileMap cache' asked fetched.
  subst result profileMap cache' asked fetched.
  rewrite zapperProfiles_shape. cbn [fst snd].
  set (fetched := flat_map (processProfileChunk query)
                    (Chunks.chunks 100 (uncachedOf cache uniquePubkeys))).
  assert (Hcache : forall k,
    fold_left (fun m pm => <[fst pm := snd pm]> m) (parsedProfiles fetched) cache !! k
    = match lastBy fst k (parsedProfiles fetched) with
      | Some pm => Some (snd pm)
      | None => cache !! k
      end).
  { intros k. apply (store_lookup fst snd). }
  assert (Hmap : forall k,
    fold_left (fun m pm => <[fst pm := snd pm]> m) (parsedProfiles fetched)
      (fst (splitCachedProfiles uniquePubkeys cache)) !! k
    = match lastBy fst k (parsedProfiles fetched) with
      | Some pm => Some (snd pm)
      | None => if in_dec string_dec k uniquePubkeys then cache !! k else None
      end).
  { intros k. rewrite (store_lookup fst snd).
    destruct (lastBy fst k (parsedProfiles fetched)); [reflexivity|].
    destruct (split_spec cache uniquePubkeys ∅ []) as [_ Hm]. cbv zeta in Hm.
    destruct (Hm k) as [Hin Hout]. unfold splitCachedProfiles.
    destruct (in_dec string_dec k uniquePubkeys) as [Hk|Hk].
    - rewrite (Hin Hk). now destruct (cache !! k).
    - now rewrite (Hout Hk). }
  split; [apply chunks_glue; lia|].
  split; [apply ChunksFacts.chunksFrom_sizes; lia|].
  split; [exact Hcache|]. split; [exact Hmap|]. split.
  - intros e metadata Hin Hparse.
    assert (Hp : In (Nostr.pubkey e, metadata) (parsedProfiles fetched)).
    { apply parsedProfiles_In. eauto. }
    destruct (lastBy_found fst (parsedProfiles fetched) _ Hp) as (pm & Hlast).
    cbn [fst] in Hlast. rewrite Hmap, Hcache, Hlast. split; eauto.
  - intros k Hbad. rewrite Hcache.
    destruct (lastBy fst k (parsedProfiles fetched)) as [[k' m]|] eqn:Hlast; [|reflexivity].
    assert (Hk := Hlast). apply lastBy_In in Hk as [Hin Hk]. cbn [fst] in Hk. subst k'.
    apply parsedProfiles_In in Hin as (e & Hin & Hpk & Hparse).
    destruct (Hbad e Hin Hpk) as [err Herr]. congruence.
Qed.

(** [clearZapCaches] empties the receipt and profile caches and nothing else:
    [contentEventCache] is kept.  After it, every requested profile is asked
    for from the relays again, while a zapped-content lookup whose ids were all
    cached before still sends no query and returns the events cached before
    the clearing. *)
Theorem clearing_keeps_zapped_content
    (contentQuery : list string -> Settled (list Nostr.NostrEvent))
    (c : ModuleCaches) (uniquePubkeys eventIds : list string) :
  let c' := clearZapCaches c in
  let profiles := zapperProfilesQueryFn query parseMetadata uniquePubkeys (profileCache c') in
  let content := zappedContentQueryFn contentQuery eventIds (contentEventCache c') in
  zapCache c' = ∅
  /\ concat (snd profiles) = uniquePubkeys
  /\ ((forall k, In k eventIds -> is_Some (contentEventCache c !! k)) ->
      snd content = []
      /\ forall k, In k eventIds -> fst (fst content) !! k = contentEventCache c !! k).
Proof.
  cbv zeta. split; [reflexivity|]. split.
  - rewrite zapperProfiles_shape. cbn [snd clearZapCaches profileCache].
    rewrite chunks_glue by lia. apply uncachedOf_all.
  - intros Hall. rewrite zappedContent_shape.
    cbn [fst snd clearZapCaches contentEventCache].
    rewrite (uncachedOf_nil _ _ Hall). cbn. split; [reflexivity|].
    intros k Hk. destruct (split_spec (contentEventCache c) eventIds ∅ []) as [_ Hm].
    cbv zeta in Hm. destruct (Hm k) as [Hin _]. unfold splitCached. rewrite (Hin Hk).
    destruct (Hall k Hk) as [e ->]. reflexivity.
Qed.

End Profiles.

End ZapLookupsFacts.

(** ** The loader's effects and controls *)

Module LoaderEffectsFacts.
Import JS Zaplytics ZapLookups.

Section Effects.
Context `{U : Utils}.


Lemma isComplete_blocks p isAutomatic w :
  isComplete (state w) = true -> cycleBlocked p isAutomatic w = true.
Proof.
  unfold cycleBlocked. intros ->. cbv zeta.
  now rewrite orb_true_r.
Qed.


(** Once three cycles in a row have failed, or three have come back empty,
    [toggleAutoLoad] cannot resume automatic loading: whether it is pressed
    once or twice, every automatic cycle is still refused without a query,
    because the toggle leaves both counters as they are.  [restartAutoLoad]
    does resume it: afterwards an automatic cycle is refused exactly when a
    manual one is.  The toggle never affects manual cycles. *)
Theorem toggle_does_not_reset_breaker
    (p : Props) (attempt : Nostr.NostrFilter -> Settled (list Nostr.NostrEvent))
    (w : World) :
  ZAP_FETCH_CONFIG.MAX_CONSECUTIVE_FAILURES <= consecutiveFailures (state w)
  \/ 3 <= consecutiveZeroResults (state w) ->
  loadMoreZaps p attempt true (toggleAutoLoad w) = (toggleAutoLoad w, [])
  /\ loadMoreZaps p attempt true (toggleAutoLoad (toggleAutoLoad w))
     = (toggleAutoLoad (toggleAutoLoad w), [])
  /\ cycleBlocked p true (restartAutoLoad w) = cycleBlocked p false w
  /\ cycleBlocked p false (toggleAutoLoad w) = cycleBlocked p false w.
Proof.
  intros Htripped.
  assert (Hblocked : forall w0,
            consecutiveFailures (state w0) = consecutiveFailures (state w) ->
            consecutiveZeroResults (state w0) = consecutiveZeroResults (state w) ->
            cycleBlocked p true w0 = true).
  { intros w0 Hf Hz. unfold cycleBlocked. cbv zeta. rewrite Hf, Hz.
    apply orb_true_iff. right. cbn [andb].
    destruct Htripped as [H|H].
    - apply Z.leb_le in H. rewrite H. now rewrite orb_true_r.
    - apply Z.leb_le in H. rewrite H. now rewrite orb_true_r. }
  split; [apply LoaderFacts.loadMoreZaps_blocked, Hblocked; reflexivity|].
  split; [apply LoaderFacts.loadMoreZaps_blocked, Hblocked; reflexivity|].
  split.
  - unfold cycleBlocked, restartAutoLoad. cbn. now rewrite !orb_false_r.
  - unfold cycleBlocked, toggleAutoLoad. cbn. reflexivity.
Qed.

(** [clearZapCaches] does not reach a mounted loader.  The next successful
    cycle after it sends the same filter and ends in the same state as if
    nothing had been cleared, and it writes the whole cache of the state —
    every receipt loaded before the clearing, together with the new batch —
    back into the emptied [userZapCache]. *)
Theorem mounted_loader_outlives_clearing
    (p : Props) (attempt : Nostr.NostrFilter -> Settled (list Nostr.NostrEvent))
    (isAutomatic : bool) (w : World) (events : list Nostr.NostrEvent) :
  cycleBlocked p isAutomatic w = false ->
  attempt (cycleFilter p isAutomatic (state w)) = Fulfilled events ->
  let cleared := afterClearZapCaches w in
  let after := loadMoreZaps p attempt isAutomatic cleared in
  userZapCache cleared = ∅
  /\ snd after = snd (loadMoreZaps p attempt isAutomatic w)
  /\ state (fst after) = state (fst (loadMoreZaps p attempt isAutomatic w))
  /\ exists stored,
       userZapCache (fst after) = {[ default "" (pubkey p) := stored ]}
       /\ Permutation stored (allReceiptsCache (state w) ++ validate events)
       /\ forall r, In r (allReceiptsCache (state w)) -> In r stored.
Proof.
  intros Hopen Hattempt cleared after. subst after cleared.
  assert (Hopen' : cycleBlocked p isAutomatic (afterClearZapCaches w) = false)
    by exact Hopen.
  rewrite (LoaderFacts.loadMoreZaps_success p attempt isAutomatic
             (afterClearZapCaches w) events Hopen' Hattempt).
  rewrite (LoaderFacts.loadMoreZaps_success p attempt isAutomatic w events Hopen Hattempt).
  cbv zeta. cbn [fst snd state userZapCache afterClearZapCaches].
  split; [reflexivity|]. split; [reflexivity|]. split; [reflexivity|].
  exists (mergeReceipts (allReceiptsCache (state w)) (validate events)).
  split; [apply insert_empty|]. split.
  - apply LoaderFacts.mergeReceipts_perm.
  - intros r Hr. unfold mergeReceipts. apply LoaderFacts.sortDesc_In.
    apply in_or_app. now left.
Qed.

(** Switching to a window that the subject's cached receipts already cover —
    the oldest cached receipt is not younger than the window's start — is
    served from the cache.  The view becomes the cached receipts inside the
    window, the state is complete, no effect arms a cycle from that state, and
    every [loadMoreZaps] call, automatic or manual, is refused without a
    query (so is one armed by an effect that still saw the previous state). *)
Theorem covered_window_is_served_from_cache
    (p : Props) (w : World) (pk : string) (cached : list ZapReceipt) (oldest : Z) :
  let range := getDateRange (timeRange p) (customRange p) in
  pubkey p = Some pk ->
  pk <> "" ->
  userZapCache w !! pk = Some cached ->
  oldestTimestamp cached = Some oldest ->
  oldest <= since range ->
  let w' := onTimeRangeChange p w in
  receipts (state w') = filterByRange (timeRange p) range cached
  /\ allReceiptsCache (state w') = cached
  /\ isComplete (state w') = true
  /\ (forall attempt isAutomatic, loadMoreZaps p attempt isAutomatic w' = (w', []))
  /\ needsExtendedData p w' = false
  /\ (forall now, shouldStartLoading p now w' = false).
Proof.
  intros range Hpk Hne Hcached Hold Hcover w'.
  assert (Htruthy : truthy_str (pubkey p) = true).
  { rewrite Hpk. cbn. apply negb_true_iff, String.eqb_neq. exact Hne. }
  assert (Hlen : (0 <? lengthZ cached) = true).
  { apply Z.ltb_lt. unfold lengthZ. destruct cached; [discriminate|]. cbn. lia. }
  assert (Hcovers : (0 <? lengthZ cached) && (oldestCachedTimestamp cached <=? since range)
                    = true).
  { rewrite Hlen. unfold oldestCachedTimestamp. rewrite Hold. cbn.
    apply Z.leb_le. exact Hcover. }
  assert (Hstate : state w' =
    {| receipts := filterByRange (timeRange p) range cached;
       isLoading := isLoading (state w); isComplete := true;
       currentBatch := currentBatch (state w);
       totalFetched := lengthZ (filterByRange (timeRange p) range cached);
       relayLimit := relayLimit (state w); error := None;
       autoLoadEnabled := autoLoadEnabled (state w);
       consecutiveFailures := consecutiveFailures (state w);
       consecutiveZeroResults := consecutiveZeroResults (state w);
       allReceiptsCache := cached |}).
  { subst w'. unfold onTimeRangeChange, initFromCache. rewrite Htruthy. cbn [negb].
    cbv zeta. rewrite Hpk. change (default "" (Some pk)) with pk.
    rewrite Hcached. change (default [] (Some cached)) with cached.
    fold range. rewrite Hcovers. reflexivity. }
  assert (Hcache' : userZapCache w' = userZapCache w).
  { subst w'. unfold onTimeRangeChange, initFromCache. now rewrite Htruthy. }
  assert (Hcomplete : isComplete (state w') = true) by now rewrite Hstate.
  split; [now rewrite Hstate|]. split; [now rewrite Hstate|].
  split; [exact Hcomplete|]. split.
  { intros attempt isAutomatic. apply LoaderFacts.loadMoreZaps_blocked.
    now apply isComplete_blocks. }
  split.
  - unfold needsExtendedData. rewrite Htruthy. cbn [negb]. cbv zeta.
    rewrite Hcomplete. cbn [negb].
    destruct (isCustom (timeRange p) && _); [reflexivity|].
    now rewrite !andb_false_r.
  - intros now. unfold shouldStartLoading. rewrite Htruthy. cbn [negb]. cbv zeta.
    rewrite Hcache', Hpk. change (default "" (Some pk)) with pk.
    rewrite Hcached. change (default [] (Some cached)) with cached. fold range.
    rewrite Hcovers, Hcomplete.
    destruct (isCustom (timeRange p)); cbn [andb negb]; [reflexivity|].
    now rewrite !andb_false_r.
Qed.

End Effects.

#[local] Existing Instance Sample.utils.


(** Three failed cycles, then the toggle is pressed twice. *)
Lemma toggle_does_not_reset_breaker_witness :
  let fail w := fst (loadMoreZaps Sample.alice7d Sample.failing true w) in
  let w := fail (fail (fail Sample.emptyWorld)) in
  consecutiveFailures (state w) = 3
  /\ autoLoadEnabled (state (toggleAutoLoad w)) = true
  /\ loadMoreZaps Sample.alice7d (Sample.always [Sample.a]) true (toggleAutoLoad w)
     = (toggleAutoLoad w, [])
  /\ cycleBlocked Sample.alice7d true (restartAutoLoad w) = false.
Proof.
  cbv zeta. split; [vm_compute; reflexivity|]. split; [vm_compute; reflexivity|].
  destruct (toggle_does_not_reset_breaker Sample.alice7d (Sample.always [Sample.a])
              (fst (loadMoreZaps Sample.alice7d Sample.failing true
                 (fst (loadMoreZaps Sample.alice7d Sample.failing true
                    (fst (loadMoreZaps Sample.alice7d Sample.failing true
                       Sample.emptyWorld)))))))
    as (Honce & _ & Hrestart & _).
  - left. vm_compute. discriminate.
  - split; [exact Honce|]. rewrite Hrestart. vm_compute. reflexivity.
Defined.

(** [a] and [b] are loaded, the caches are cleared, the next cycle brings
    [d]: the global entry holds all three again. *)
Lemma mounted_loader_outlives_clearing_witness :
  let w := onTimeRangeChange Sample.alice30d
             (fst (loadMoreZaps Sample.alice7d (Sample.always [Sample.a; Sample.b]) true
                     Sample.emptyWorld)) in
  let after := loadMoreZaps Sample.alice30d (Sample.always [Sample.d]) true
                 (afterClearZapCaches w) in
  exists stored,
    userZapCache (fst after) = {[ "alice" := stored ]}
    /\ Permutation stored [Sample.a; Sample.b; Sample.d].
Proof.
  cbv zeta.
  destruct (mounted_loader_outlives_clearing Sample.alice30d (Sample.always [Sample.d])
              true
              (onTimeRangeChange Sample.alice30d
                 (fst (loadMoreZaps Sample.alice7d (Sample.always [Sample.a; Sample.b])
                         true Sample.emptyWorld)))
              [Sample.d])
    as (_ & _ & _ & stored & Hstored & Hperm & _).
  - vm_compute. reflexivity.
  - reflexivity.
  - exists stored. split; [exact Hstored|exact Hperm].
Defined.

(** The 30-day window has loaded [a] and [d]; the 7-day window is covered. *)
Lemma covered_window_is_served_from_cache_witness :
  let w := fst (loadMoreZaps Sample.alice30d (Sample.always [Sample.a; Sample.d]) true
                  Sample.emptyWorld) in
  let w' := onTimeRangeChange Sample.alice7d w in
  receipts (state w') = [Sample.a]
  /\ loadMoreZaps Sample.alice7d (Sample.always [Sample.b]) false w' = (w', []).
Proof.
  cbv zeta.
  destruct (covered_window_is_served_from_cache Sample.alice7d
              (fst (loadMoreZaps Sample.alice30d (Sample.always [Sample.a; Sample.d]) true
                      Sample.emptyWorld))
              "alice" [Sample.a; Sample.d] (Sample.now - 10 * Sample.day))
    as (Hview & _ & _ & Hrefused & _).
  - reflexivity.
  - discriminate.
  - vm_compute. reflexivity.
  - vm_compute. reflexivity.
  - vm_compute. discriminate.
  - split; [rewrite Hview; vm_compute; reflexivity|apply Hrefused].
Defined.

End LoaderEffectsFacts.

(** ** The fan-out query, its relay list and the loader on top of it *)

Module FanoutFacts.
Import JS QueryRelays MapFacts Zaplytics.

(** The distinct keys of a list, each at the place of its first occurrence. *)
Fixpoint firstOccurrences (ks : list string) : list string :=
  match ks with
  | [] => []
  | k :: ks' => k :: List.filter (fun k' => negb (String.eqb k' k)) (firstOccurrences ks')
  end.

(** A pool that agrees with [Sample.pool] on the default relays and on
    [wss://one], and answers where that one fails. *)
Definition otherPool : Nostr.NPool :=
  {| Nostr.query := fun _ => Fulfilled [Sample.a; Sample.b];
     Nostr.relay := fun url =>
       if String.eqb url "wss://one"
       then Normal {| Nostr.relay_query := fun _ => Normal (Fulfilled [Sample.b; Sample.c]) |}
       else Normal {| Nostr.relay_query := fun _ => Normal (Fulfilled [Sample.d]) |} |}.

(** A pool none of whose relays answers. *)
Definition deadPool : Nostr.NPool :=
  {| Nostr.query := fun _ => Rejected (Error "connection refused");
     Nostr.relay := fun _ =>
       Normal {| Nostr.relay_query :=
                   fun _ => Normal (Rejected (Error "connection refused")) |} |}.

Lemma firstOccurrences_In k ks : In k (firstOccurrences ks) <-> In k ks.
Proof.
  induction ks as [|x ks IH]; simpl; [reflexivity|].
  rewrite filter_In, IH. split.
  - intros [H|[H _]]; [now left|now right].
  - intros [H|H]; [now left|].
    destruct (String.eqb_spec k x) as [->|Hne]; [now left|right; now split].
Qed.

Lemma firstOccurrences_snoc ks k :
  firstOccurrences (ks ++ [k])
  = if in_dec string_dec k ks then firstOccurrences ks
    else (firstOccurrences ks ++ [k])%list.
Proof.
  induction ks as [|x ks IH]; [reflexivity|].
  cbn [app firstOccurrences]. rewrite IH.
  destruct (in_dec string_dec k ks) as [Hin|Hout].
  - destruct (in_dec string_dec k (x :: ks)) as [_|Hno]; [reflexivity|].
    exfalso. apply Hno. now right.
  - rewrite List.filter_app. cbn [List.filter].
    destruct (String.eqb_spec k x) as [->|Hne]; cbn [negb].
    + destruct (in_dec string_dec x (x :: ks)) as [_|Hno];
        [now rewrite app_nil_r|]. exfalso. apply Hno. now left.
    + destruct (in_dec string_dec k (x :: ks)) as [[Heq|Hin]|_];
        [congruence|contradiction|reflexivity].
Qed.

Section Keys.
Context {V : Type}.

Lemma Map_new_snoc (es : list (string * V)) kv :
  Map_new (es ++ [kv]) = Map_set (fst kv) (snd kv) (Map_new es).
Proof. unfold Map_new. now rewrite fold_left_app. Qed.

Lemma Map_new_keys (es : list (string * V)) :
  keys (Map_new es) = firstOccurrences (keys es).
Proof.
  induction es as [|kv es IH] using rev_ind; [reflexivity|].
  rewrite Map_new_snoc. unfold keys at 2. rewrite map_app. fold (keys es).
  cbn [map]. rewrite firstOccurrences_snoc.
  destruct (in_dec string_dec (fst kv) (keys es)) as [Hin|Hout].
  - rewrite Map_set_keys_present; [exact IH|].
    rewrite IH. now apply firstOccurrences_In.
  - rewrite Map_set_fresh.
    + unfold keys at 1. rewrite map_app. fold (keys (Map_new es)). now rewrite IH.
    + rewrite IH. now rewrite firstOccurrences_In.
Qed.

Lemma Map_set_entry_other k (v : V) (m : list (string * V)) kv :
  List.NoDup (keys m) ->
  In kv (Map_set k v m) -> kv = (k, v) \/ (In kv m /\ fst kv <> k).
Proof.
  induction m as [|[k' v'] m IH]; simpl; intros Hnd.
  - intros [<-|[]]. now left.
  - apply List.NoDup_cons_iff in Hnd as [Hfresh Hnd].
    destruct (String.eqb_spec k' k) as [->|Hne]; simpl.
    + intros [<-|Hin]; [now left|]. right. split; [now right|].
      intros Hk. apply Hfresh. rewrite <- Hk. unfold keys. now apply in_map.
    + intros [<-|Hin]; [right; split; [now left|exact Hne]|].
      destruct (IH Hnd Hin) as [->|[Hm Hk]]; [now left|].
      right. split; [now right|exact Hk].
Qed.

Lemma values_by_key (f : string -> option V) (m : list (string * V)) :
  (forall kv, In kv m -> f (fst kv) = Some (snd kv)) ->
  Map_values m = omap f (keys m).
Proof.
  unfold Map_values, keys. induction m as [|kv m IH]; intros Hall; [reflexivity|].
  cbn [map omap list_omap]. rewrite (Hall kv) by now left.
  f_equal. apply IH. intros kv' Hin. apply Hall. now right.
Qed.

End Keys.

Lemma entries_last_copy (events : list Nostr.NostrEvent) :
  forall kv,
    In kv (Map_new (QueryRelaysFacts.entriesOf events)) ->
    ZapLookupsFacts.lastBy Nostr.id (fst kv) events = Some (snd kv).
Proof.
  induction events as [|e events IH] using rev_ind; intros kv; [intros []|].
  unfold QueryRelaysFacts.entriesOf. rewrite map_app.
  fold (QueryRelaysFacts.entriesOf events). cbn [map].
  rewrite Map_new_snoc. cbn [fst snd]. intros Hin.
  apply Map_set_entry_other in Hin.
  - rewrite ZapLookupsFacts.lastBy_snoc.
    destruct Hin as [->|[Hin Hk]]; cbn [fst snd].
    + now rewrite String.eqb_refl.
    + destruct (String.eqb_spec (Nostr.id e) (fst kv)) as [Heq|_];
        [congruence|now apply IH].
  - apply (Map_extend_NoDup (QueryRelaysFacts.entriesOf events) []). constructor.
Qed.

Lemma dedupeById_spec (events : list Nostr.NostrEvent) :
  dedupeById events
  = omap (fun k => ZapLookupsFacts.lastBy Nostr.id k events)
      (firstOccurrences (Nostr.ids events)).
Proof.
  unfold dedupeById. fold (QueryRelaysFacts.entriesOf events).
  rewrite (values_by_key (fun k => ZapLookupsFacts.lastBy Nostr.id k events))
    by apply entries_last_copy.
  now rewrite Map_new_keys, QueryRelaysFacts.keys_entriesOf.
Qed.

(** Which copy the fan-out keeps.  [all] is the concatenation of the answers
    of the sub-queries that fulfilled, the default pool first and then the
    extra relays in the order they are listed.  The result has one event per
    distinct id, at the place where the id first occurs in [all], and the
    event at that place is the last one in [all] that carries the id: for an
    id that several relays return, the position is decided by the first
    source and the content by the last. *)
Theorem fanout_first_place_last_copy
    (nostr : Nostr.NPool) (filters : list Nostr.NostrFilter) (urls : list string) :
  let all := allEvents (settledResults nostr filters urls) in
  exists events,
    queryWithNip65Fanout nostr filters urls = Fulfilled events
    /\ Nostr.ids events = firstOccurrences (Nostr.ids all)
    /\ events = omap (fun k => ZapLookupsFacts.lastBy Nostr.id k all)
                  (firstOccurrences (Nostr.ids all))
    /\ forall e, In e events -> ZapLookupsFacts.lastBy Nostr.id (Nostr.id e) all = Some e.
Proof.
  intros all. exists (dedupeById all). split; [reflexivity|]. split; [|split].
  - rewrite QueryRelaysFacts.dedupe_ids, Map_new_keys.
    now rewrite QueryRelaysFacts.keys_entriesOf.
  - apply dedupeById_spec.
  - intros e He. unfold dedupeById, Map_values in He.
    fold (QueryRelaysFacts.entriesOf all) in He.
    apply in_map_iff in He as (kv & <- & Hkv).
    pose proof (entries_last_copy all kv Hkv) as Hlast.
    apply QueryRelaysFacts.dedupe_entries_keyed in Hkv as [Hk _].
    now rewrite <- Hk.
Qed.

(** Only relays marked for reading take part in a fan-out over the configured
    relay list: the sub-queries are the default pool and one per read-marked
    entry, and two pools that agree on the default query and on the relays
    marked for reading give the same result, whatever the other relays of the
    list would answer. *)
Theorem write_only_relays_are_not_consulted
    (nostr nostr' : Nostr.NPool) (filters : list Nostr.NostrFilter)
    (relays : list RelayEntry) :
  Nostr.query nostr filters = Nostr.query nostr' filters ->
  (forall r, In r relays -> read r = true ->
             relayPromise nostr filters (url r) = relayPromise nostr' filters (url r)) ->
  length (settledResults nostr filters (getNip65ReadRelays (Some relays)))
  = S (length (List.filter read relays))
  /\ queryWithNip65Fanout nostr filters (getNip65ReadRelays (Some relays))
     = queryWithNip65Fanout nostr' filters (getNip65ReadRelays (Some relays)).
Proof.
  intros Hpool Hread. split.
  - unfold settledResults, getNip65ReadRelays. cbn [length].
    now rewrite !length_map.
  - unfold queryWithNip65Fanout, settledResults, getNip65ReadRelays. cbv zeta.
    rewrite Hpool.
    assert (Hsame : map (relayPromise nostr filters) (map url (List.filter read relays))
                    = map (relayPromise nostr' filters) (map url (List.filter read relays))).
    { rewrite !map_map. apply map_ext_in.
      intros r Hr. apply filter_In in Hr as [Hin Hmarked]. now apply Hread. }
    now rewrite Hsame.
Qed.

(** The loader never sees a relay failure.  With the fan-out query as the
    attempt of a cycle, every cycle that passes the guards ends in the success
    branch: [error] is null and [consecutiveFailures] is 0 afterwards.  When
    every sub-query rejects, the cycle is recorded as an empty batch: the
    zero-results counter goes up by one, the cached receipts and the detected
    limit are kept, automatic loading stays as it was, and [isComplete]
    becomes [!!since] — true for every window with a start. *)
Theorem relay_outage_counts_as_empty_batch
    `{U : Utils} (nostr : Nostr.NPool) (relays : list string)
    (p : Props) (isAutomatic : bool) (w : World) :
  cycleBlocked p isAutomatic w = false ->
  let filter := cycleFilter p isAutomatic (state w) in
  let st' := state (fst (loadMoreZaps p (fanoutAttempt nostr relays) isAutomatic w)) in
  error st' = None
  /\ consecutiveFailures st' = 0
  /\ (Forall (fun r => isFulfilled r = false) (settledResults nostr [filter] relays) ->
      consecutiveZeroResults st' = consecutiveZeroResults (state w) + 1
      /\ isComplete st' = truthy (since (getDateRange (timeRange p) (customRange p)))
      /\ autoLoadEnabled st' = autoLoadEnabled (state w)
      /\ relayLimit st' = relayLimit (state w)
      /\ Permutation (allReceiptsCache st') (allReceiptsCache (state w))).
Proof.
  intros Hopen filter st'. subst st' filter.
  rewrite (LoaderFacts.loadMoreZaps_success p (fanoutAttempt nostr relays) isAutomatic w
             (dedupeById (allEvents (settledResults nostr
                [cycleFilter p isAutomatic (state w)] relays))) Hopen eq_refl).
  cbv zeta. cbn [fst state]. split; [reflexivity|]. split; [reflexivity|].
  intros Hdown.
  assert (Hnone : allEvents (settledResults nostr
                    [cycleFilter p isAutomatic (state w)] relays) = []).
  { unfold allEvents.
    induction (settledResults nostr [cycleFilter p isAutomatic (state w)] relays)
      as [|r rs IH]; [reflexivity|].
    apply List.Forall_cons_iff in Hdown as [Hr Hrs].
    cbn [List.filter]. rewrite Hr. now apply IH. }
  rewrite Hnone.
  change (validate (dedupeById [])) with (@nil ZapReceipt).
  unfold onBatchSuccess, detectLimit, completionAfter, mergeReceipts.
  cbn [consecutiveZeroResults isComplete autoLoadEnabled relayLimit allReceiptsCache
       startLoading lengthZ length Z.of_nat Z.eqb Z.ltb Z.compare].
  rewrite andb_false_r, app_nil_r.
  split; [reflexivity|]. split; [reflexivity|]. split; [reflexivity|].
  split; [reflexivity|].
  apply LoaderFacts.sortDesc_perm.
Qed.

(** A list with a write-only relay; the pools differ on that relay only. *)
Lemma write_only_relays_are_not_consulted_witness :
  let relays := [ {| url := "wss://one"; read := true; write := false |};
                  {| url := "wss://down"; read := false; write := true |} ] in
  relayPromise Sample.pool [] "wss://down" = Rejected (Error "timeout")
  /\ relayPromise otherPool [] "wss://down" = Fulfilled [Sample.d]
  /\ queryWithNip65Fanout Sample.pool [] (getNip65ReadRelays (Some relays))
     = queryWithNip65Fanout otherPool [] (getNip65ReadRelays (Some relays)).
Proof.
  cbv zeta. split; [reflexivity|]. split; [reflexivity|].
  apply (write_only_relays_are_not_consulted Sample.pool otherPool []
           [ {| url := "wss://one"; read := true; write := false |};
             {| url := "wss://down"; read := false; write := true |} ]).
  - reflexivity.
  - intros r [<-|[<-|[]]]; [reflexivity|discriminate].
Defined.

#[local] Existing Instance Sample.utils.

(** The first load of the 7-day window while no relay answers: no error, no
    failure counted, and the window is complete with nothing in it. *)
Lemma relay_outage_counts_as_empty_batch_witness :
  let st' := state (fst (loadMoreZaps Sample.alice7d
                           (fanoutAttempt deadPool ["wss://one"]) true
                           Sample.emptyWorld)) in
  error st' = None /\ consecutiveFailures st' = 0
  /\ consecutiveZeroResults st' = 1 /\ isComplete st' = true /\ receipts st' = [].
Proof.
  cbv zeta.
  destruct (relay_outage_counts_as_empty_batch (U := Sample.utils) deadPool ["wss://one"]
              Sample.alice7d true Sample.emptyWorld)
    as (Herror & Hfailures & Hdown).
  - vm_compute. reflexivity.
  - destruct Hdown as (Hzero & Hcomplete & _).
    + repeat constructor.
    + split; [exact Herror|]. split; [exact Hfailures|]. split; [exact Hzero|].
      split; [rewrite Hcomplete; vm_compute; reflexivity|vm_compute; reflexivity].
Defined.

End FanoutFacts.
